(** * volume_id: the two-region read cache of [util.c]

    A shallow embedding of [volume_id_get_buffer] and
    [volume_id_free_buffer] from [extras/volume_id/volume_id/util.c],
    together with the small part of POSIX they call ([malloc], [lseek],
    [read]), and the properties of the cache that the design document
    states about them. *)

From Stdlib Require Import ZArith Bool Lia.
From Stdlib.Strings Require Import Byte.
From stdpp Require Import base list strings.

Local Open Scope Z_scope.

(** ** Machine integers

    [off] is a [__u64], [len] and [buf_len] are [unsigned int].  Unsigned
    arithmetic wraps; the wrap-around is written out with [u64] and [u32]. *)

Definition u64 (z : Z) : Z := z mod 2 ^ 64.
Definition u32 (z : Z) : Z := z mod 2 ^ 32.

Definition is_u64 (z : Z) : Prop := 0 <= z < 2 ^ 64.
Definition is_u32 (z : Z) : Prop := 0 <= z < 2 ^ 32.

(** ** The byte source behind [id->fd]

    An open file: its bytes, the file offset kept by the kernel, and the
    system calls issued on it so far (oldest first).  The log is what a
    mock source would count. *)

Inductive syscall : Type :=
  | Lseek (off : Z)
  | Read (count : Z).

Record file : Type := File {
  contents : list byte;
  position : Z;
  calls : list syscall
}.

(** What the environment may do wrong during one call of the cache. *)
Record faults : Type := Faults {
  malloc_fails : bool;
  lseek_fails : bool;
  read_fails : bool
}.

Definition no_faults : faults := Faults false false false.

(** [slice data off n]: the bytes of [data] from [off] on, at most [n]. *)
Definition slice (data : list byte) (off n : Z) : list byte :=
  if off <? Z.of_nat (length data)
  then take (Z.to_nat n) (drop (Z.to_nat off) data)
  else [].

(** [malloc]: [NULL], or a fresh block none of whose cells is initialised.
    A block is represented by its initialised prefix; the cells behind it
    are indeterminate. *)
Definition malloc (env : faults) : option (list byte) :=
  if malloc_fails env then None else Some [].

(** [lseek(fd, off, SEEK_SET)].  [off_t] is a signed 64-bit integer, so a
    [__u64] offset from [2^63] on is negative and refused with [EINVAL]. *)
Definition lseek (env : faults) (f : file) (off : Z) : Z * file :=
  let log := calls f ++ [Lseek off] in
  if lseek_fails env || (2 ^ 63 <=? off)
  then (-1, File (contents f) (position f) log)
  else (off, File (contents f) off log).

(** [read(fd, buf, count)]: the [ssize_t] result, the bytes transferred and
    the file afterwards.  Fewer than [count] bytes are transferred only at
    the end of the file. *)
Definition read (env : faults) (f : file) (count : Z) : Z * list byte * file :=
  let log := calls f ++ [Read count] in
  if read_fails env
  then (-1, [], File (contents f) (position f) log)
  else
    let got := slice (contents f) (position f) count in
    let n := Z.of_nat (length got) in
    (n, got, File (contents f) (position f + n) log).

(** The bytes [read] transferred overwrite the start of the block. *)
Definition store (got buf : list byte) : list byte :=
  got ++ drop (length got) buf.

(** ** The cache state: the buffer fields of [struct volume_id]

    [sbbuf] and [seekbuf] are [__u8 *] ([None] is [NULL]), [sbbuf_len] and
    [seekbuf_len] are [unsigned int], [seekbuf_off] is a [__u64]. *)

Record volume_id : Type := VolumeId {
  sbbuf : option (list byte);
  sbbuf_len : Z;
  seekbuf : option (list byte);
  seekbuf_off : Z;
  seekbuf_len : Z
}.

(** The value returned: a pointer into one of the two blocks, or [NULL].
    Each [return NULL] of the source is tagged with the reason it stands
    for; C callers see [NULL] in all four cases. *)
Inductive pointer : Type :=
  | SbPtr (idx : Z)
  | SeekPtr (idx : Z).

Inductive failure : Type :=
  | AllocationFailed
  | IoFailure
  | InsufficientData
  | RequestTooLarge.

Inductive result : Type :=
  | Ok (p : pointer)
  | Null (why : failure).

(** Reading [len] bytes through a returned pointer.  [None] when the span
    is not inside the initialised part of the block it points into. *)
Definition deref (id : volume_id) (p : pointer) (len : Z)
    : option (list byte) :=
  let '(block, idx) :=
    match p with
    | SbPtr i => (sbbuf id, i)
    | SeekPtr i => (seekbuf id, i)
    end in
  match block with
  | None => None
  | Some buf =>
      if idx + len <=? Z.of_nat (length buf)
      then Some (take (Z.to_nat len) (drop (Z.to_nat idx) buf))
      else None
  end.

Section Cache.

(** The two capacities are macros of [util.h]. *)
Variable SB_BUFFER_SIZE : Z.
Variable SEEK_BUFFER_SIZE : Z.

(** ** [volume_id_get_buffer]

    The result of [read] is an [ssize_t]; assigned to the [unsigned int]
    [buf_len] it is taken modulo [2^32].  The result of [lseek] is looked
    at on the seek buffer path only. *)

Definition volume_id_get_buffer (env : faults) (id : volume_id) (f : file)
    (off len : Z) : result * volume_id * file :=
  let want := u64 (off + len) in
  (* check if requested area fits in superblock buffer *)
  if want <=? SB_BUFFER_SIZE then
    match (match sbbuf id with Some b => Some b | None => malloc env end) with
    | None => (Null AllocationFailed, id, f)
    | Some buf =>
        let id1 := VolumeId (Some buf) (sbbuf_len id)
                            (seekbuf id) (seekbuf_off id) (seekbuf_len id) in
        (* check if we need to read *)
        if sbbuf_len id <? want then
          let '(_, f1) := lseek env f 0 in
          let '(r, got, f2) := read env f1 want in
          let buf_len := u32 r in
          let id2 := VolumeId (Some (store got buf)) buf_len
                              (seekbuf id) (seekbuf_off id) (seekbuf_len id) in
          if buf_len <? want
          then (Null InsufficientData, id2, f2)
          else (Ok (SbPtr off), id2, f2)
        else (Ok (SbPtr off), id1, f)
    end
  else
    if SEEK_BUFFER_SIZE <? len then (Null RequestTooLarge, id, f)
    else
      (* get seek buffer *)
      match
        (match seekbuf id with Some b => Some b | None => malloc env end)
      with
      | None => (Null AllocationFailed, id, f)
      | Some buf =>
          let id1 := VolumeId (sbbuf id) (sbbuf_len id)
                              (Some buf) (seekbuf_off id) (seekbuf_len id) in
          (* check if we need to read *)
          if (off <? seekbuf_off id)
             || (u64 (seekbuf_off id + seekbuf_len id) <? want) then
            let '(pos, f1) := lseek env f off in
            if pos =? -1 then (Null IoFailure, id1, f1)
            else
              let '(r, got, f2) := read env f1 len in
              let buf_len := u32 r in
              let id2 := VolumeId (sbbuf id) (sbbuf_len id)
                                  (Some (store got buf)) off buf_len in
              if buf_len <? len
              then (Null InsufficientData, id2, f2)
              else (Ok (SeekPtr (u64 (off - seekbuf_off id2))), id2, f2)
          else (Ok (SeekPtr (u64 (off - seekbuf_off id))), id1, f)
      end.

(** ** [volume_id_free_buffer] *)

Definition volume_id_free_buffer (id : volume_id) : volume_id :=
  let id1 :=
    match sbbuf id with
    | Some _ => VolumeId None 0 (seekbuf id) (seekbuf_off id) (seekbuf_len id)
    | None => id
    end in
  match seekbuf id1 with
  | Some _ => VolumeId (sbbuf id1) (sbbuf_len id1) None (seekbuf_off id1) 0
  | None => id1
  end.

(** ** Sequences of calls *)

Record request : Type := Request {
  req_env : faults;
  req_off : Z;
  req_len : Z
}.

(** What the caller sees of one call: [NULL], or the pointer together
    with the [len] bytes behind it when the call returns. *)
Definition seen (id : volume_id) (r : result) (len : Z) : option (list byte) :=
  match r with
  | Ok p => deref id p len
  | Null _ => None
  end.

Fixpoint run (reqs : list request) (id : volume_id) (f : file)
    : list (result * option (list byte)) * volume_id * file :=
  match reqs with
  | [] => ([], id, f)
  | q :: reqs' =>
      let '(r, id1, f1) :=
        volume_id_get_buffer (req_env q) id f (req_off q) (req_len q) in
      let '(rs, id2, f2) := run reqs' id1 f1 in
      ((r, seen id1 r (req_len q)) :: rs, id2, f2)
  end.

End Cache.

(** Modelled from the spec: the state a probing session starts in (it is
    set up by [volume_id_open_fd], outside [util.c]): both buffers
    unallocated, both valid lengths 0. *)
Definition closed_buffers : volume_id := VolumeId None 0 None 0 0.

(** The states of the cache: those the two operations reach from
    [closed_buffers], whatever the requests and the environment. *)
Inductive reachable (SB SEEK : Z) : volume_id -> Prop :=
  | reach_closed : reachable SB SEEK closed_buffers
  | reach_get env id f off len r id' f' :
      reachable SB SEEK id ->
      volume_id_get_buffer SB SEEK env id f off len = (r, id', f') ->
      reachable SB SEEK id'
  | reach_free id :
      reachable SB SEEK id ->
      reachable SB SEEK (volume_id_free_buffer id).

(** ** Frames and invariants *)

Definition window_untouched (id id' : volume_id) : Prop :=
  seekbuf id' = seekbuf id
  /\ seekbuf_off id' = seekbuf_off id
  /\ seekbuf_len id' = seekbuf_len id.

Definition front_untouched (id id' : volume_id) : Prop :=
  sbbuf id' = sbbuf id /\ sbbuf_len id' = sbbuf_len id.

(** An unallocated region has valid length 0. *)
Definition unallocated_empty (id : volume_id) : Prop :=
  (sbbuf id = None -> sbbuf_len id = 0)
  /\ (seekbuf id = None -> seekbuf_len id = 0).

(** No block is filled past the capacity it was allocated with. *)
Definition within_capacity (SB SEEK : Z) (id : volume_id) : Prop :=
  (forall buf, sbbuf id = Some buf -> Z.of_nat (length buf) <= SB)
  /\ (forall buf, seekbuf id = Some buf -> Z.of_nat (length buf) <= SEEK).

(** The first [n] bytes of the block [buf] are the [n] bytes of [data]
    from [off] on. *)
Definition mirrors (data buf : list byte) (off n : Z) : Prop :=
  0 <= n
  /\ Z.of_nat (length (slice data off n)) = n
  /\ take (Z.to_nat n) buf = slice data off n.

Definition region_ok (cap : Z) (data : list byte) (block : option (list byte))
    (off n : Z) : Prop :=
  match block with
  | None => n = 0
  | Some buf => Z.of_nat (length buf) <= cap /\ mirrors data buf off n
  end.

(** The state of a cache over the source [data]: no block is filled past
    its capacity, and what each region declares valid mirrors the source. *)
Definition cache_inv (SB SEEK : Z) (data : list byte) (id : volume_id) : Prop :=
  region_ok SB data (sbbuf id) 0 (sbbuf_len id)
  /\ region_ok SEEK data (seekbuf id) (seekbuf_off id) (seekbuf_len id)
  /\ 0 <= seekbuf_off id
  /\ seekbuf_off id + seekbuf_len id < 2 ^ 64.

(** What a caller can observe of a call served by the superblock buffer,
    and of one served by the seek buffer. *)
Definition front_outcome (off want : Z) (id : volume_id) (f : file)
    (out : result * volume_id * file) : Prop :=
  let '(r, id', f') := out in
  (r = Ok (SbPtr off) \/ r = Null AllocationFailed \/ r = Null InsufficientData)
  /\ window_untouched id id'
  /\ contents f' = contents f
  /\ (calls f' = calls f \/ calls f' = calls f ++ [Lseek 0; Read want]).

Definition window_outcome (off len : Z) (id : volume_id) (f : file)
    (out : result * volume_id * file) : Prop :=
  let '(r, id', f') := out in
  ((exists i, r = Ok (SeekPtr i)) \/ (exists why, r = Null why))
  /\ front_untouched id id'
  /\ contents f' = contents f
  /\ (calls f' = calls f
      \/ calls f' = calls f ++ [Lseek off]
      \/ calls f' = calls f ++ [Lseek off; Read len]).

(** A call served by the superblock buffer, in full: what it returns, what
    it does to the cache and which system calls it issues, by whether a
    block can be had and whether the buffer is valid up to [want], the end
    of the request.  Without a block and with [malloc] failing the call
    returns [NULL] and changes nothing.  Otherwise a buffer valid up to
    [want] is answered with [&sbbuf[off]] and no system call; one that is
    not is refilled by one [lseek] to 0 and one [read] of [want] bytes, and
    the call returns [&sbbuf[off]] exactly when the new valid length
    reaches [want]. *)
Definition front_served (env : faults) (off want : Z) (id : volume_id)
    (f : file) (out : result * volume_id * file) : Prop :=
  let '(r, id', f') := out in
  window_untouched id id'
  /\ contents f' = contents f
  /\ match sbbuf id, malloc_fails env with
     | None, true => r = Null AllocationFailed /\ id' = id /\ f' = f
     | _, _ =>
         sbbuf id' <> None
         /\ if sbbuf_len id <? want
            then
              calls f' = calls f ++ [Lseek 0; Read want]
              /\ r = (if sbbuf_len id' <? want
                      then Null InsufficientData
                      else Ok (SbPtr off))
              /\ (lseek_fails env = false -> read_fails env = false ->
                  sbbuf_len id'
                  = u32 (Z.of_nat (length (slice (contents f) 0 want))))
            else
              r = Ok (SbPtr off) /\ f' = f
              /\ sbbuf_len id' = sbbuf_len id
              /\ (sbbuf id <> None -> id' = id)
     end.

(** A call served by the seek buffer, in full.  A request longer than the
    capacity [SEEK] is refused at once.  Without a block and with [malloc]
    failing the call returns [NULL] and changes nothing.  Otherwise a
    request inside the window is answered with
    [&seekbuf[off - seekbuf_off]] and no system call; one that is not
    makes one [lseek] to [off], returns [NULL] if that fails, and else
    makes one [read] of [len] bytes, moves the window to [off] and returns
    [&seekbuf[0]] exactly when the new valid length reaches [len]. *)
Definition window_served (SEEK : Z) (env : faults) (off len want : Z)
    (id : volume_id) (f : file) (out : result * volume_id * file) : Prop :=
  let '(r, id', f') := out in
  front_untouched id id'
  /\ contents f' = contents f
  /\ if SEEK <? len then r = Null RequestTooLarge /\ id' = id /\ f' = f
     else
       match seekbuf id, malloc_fails env with
       | None, true => r = Null AllocationFailed /\ id' = id /\ f' = f
       | _, _ =>
           seekbuf id' <> None
           /\ if (off <? seekbuf_off id)
                 || (u64 (seekbuf_off id + seekbuf_len id) <? want)
              then
                if lseek_fails env || (2 ^ 63 <=? off)
                then
                  r = Null IoFailure
                  /\ calls f' = calls f ++ [Lseek off]
                  /\ seekbuf_off id' = seekbuf_off id
                  /\ seekbuf_len id' = seekbuf_len id
                else
                  calls f' = calls f ++ [Lseek off; Read len]
                  /\ seekbuf_off id' = off
                  /\ r = (if seekbuf_len id' <? len
                          then Null InsufficientData
                          else Ok (SeekPtr 0))
                  /\ (read_fails env = false ->
                      seekbuf_len id'
                      = u32 (Z.of_nat
                               (length (slice (contents f) off len))))
              else
                r = Ok (SeekPtr (u64 (off - seekbuf_off id))) /\ f' = f
                /\ seekbuf_off id' = seekbuf_off id
                /\ seekbuf_len id' = seekbuf_len id
                /\ (seekbuf id <> None -> id' = id)
       end.

(** A request that only asks for bytes of [off, off+len). *)
Definition within (off len : Z) (q : request) : Prop :=
  off <= req_off q /\ 0 <= req_len q /\ req_off q + req_len q <= off + len.

(** A request a reliable source answers, and whose end is a 64-bit offset. *)
Definition plain (q : request) : Prop :=
  lseek_fails (req_env q) = false
  /\ read_fails (req_env q) = false
  /\ is_u64 (req_off q) /\ is_u32 (req_len q)
  /\ req_off q + req_len q < 2 ^ 64.

(** ** Concrete data for the examples *)

Definition bytes_of (l : list Z) : list byte :=
  map (fun z => default x00 (Byte.of_N (Z.to_N z))) l.

Definition ten_bytes : list byte := bytes_of [1; 2; 3; 4; 5; 6; 7; 8; 9; 10].

(** A source of 70010 bytes, ending 10 bytes after offset 70000. *)
Definition long_source : list byte := repeat x41 (Z.to_nat 70010).

(** The capacities the examples are run with. *)
Definition SB_example : Z := 69632.
Definition SEEK_example : Z := 65536.

Definition read_error : faults := Faults false false true.
Definition seek_error : faults := Faults false true false.

(** ** Bytes as numbers *)

Definition byte_val (b : byte) : Z := Z.of_N (Byte.to_N b).

(** The conversion [(__u8) z]. *)
Definition u8 (z : Z) : byte :=
  default x00 (Byte.of_N (Z.to_N (z mod 256))).

(** ** Arrays, and pointers into the caller's bytes

    An array is the list of its cells; [buf] stands for the bytes that can
    be read from the pointer on.  An access outside an array has no defined
    result: [None]. *)

Definition memcpy (dst src : list byte) (count : Z) : option (list byte) :=
  if (count <=? Z.of_nat (length src)) && (count <=? Z.of_nat (length dst))
  then Some (take (Z.to_nat count) src ++ drop (Z.to_nat count) dst)
  else None.

(** [a[i] = c]. *)
Definition poke (a : list byte) (i : Z) (c : byte) : option (list byte) :=
  if (0 <=? i) && (i <? Z.of_nat (length a))
  then Some (<[Z.to_nat i := c]> a)
  else None.

(** [strnlen(s, maxlen)]. *)
Fixpoint strnlen (s : list byte) (maxlen : nat) : nat :=
  match maxlen, s with
  | S m, c :: s' => if Byte.eqb c x00 then O else S (strnlen s' m)
  | _, _ => O
  end.

(** [isspace] in the C locale: space, and [\t \n \v \f \r]. *)
Definition isspace (c : byte) : bool :=
  (byte_val c =? 32) || ((9 <=? byte_val c) && (byte_val c <=? 13)).

(** The string a [char] array holds: its bytes up to the first NUL. *)
Fixpoint cstring (s : list byte) : list byte :=
  match s with
  | [] => []
  | c :: s' => if Byte.eqb c x00 then [] else c :: cstring s'
  end.

(** ** The identification fields of [struct volume_id]

    [label_raw], [label], [uuid_raw] and [uuid] are arrays inside the
    structure, [label_raw_len] and [uuid_raw_len] are [unsigned int],
    [usage] points to a string literal or is [NULL]. *)

(** A value of [enum volume_id_usage] is an integer: the switch of
    [usage_to_string] compares it with the eight enumerators and falls
    through to [return NULL] for any other value. *)
Definition volume_id_usage : Type := Z.

(** The values of the enumerators, which [libvolume_id.h] declares. *)
Record usage_values : Type := UsageValues {
  VOLUME_ID_UNUSED : volume_id_usage;
  VOLUME_ID_UNPROBED : volume_id_usage;
  VOLUME_ID_OTHER : volume_id_usage;
  VOLUME_ID_FILESYSTEM : volume_id_usage;
  VOLUME_ID_PARTITIONTABLE : volume_id_usage;
  VOLUME_ID_RAID : volume_id_usage;
  VOLUME_ID_DISKLABEL : volume_id_usage;
  VOLUME_ID_CRYPTO : volume_id_usage
}.

(** The enumerators, in the order of the case labels. *)
Definition enumerators (E : usage_values) : list volume_id_usage :=
  [VOLUME_ID_FILESYSTEM E; VOLUME_ID_PARTITIONTABLE E; VOLUME_ID_OTHER E;
   VOLUME_ID_RAID E; VOLUME_ID_DISKLABEL E; VOLUME_ID_CRYPTO E;
   VOLUME_ID_UNPROBED E; VOLUME_ID_UNUSED E].

Record volume_id_info : Type := VolumeIdInfo {
  label_raw : list byte;
  label_raw_len : Z;
  label : list byte;
  uuid_raw : list byte;
  uuid_raw_len : Z;
  uuid : list byte;
  usage_id : volume_id_usage;
  usage : option string
}.

Record volume_id_partition : Type := VolumeIdPartition {
  part_usage_id : volume_id_usage;
  part_usage : option string
}.

Definition with_label (id : volume_id_info) (l : list byte) : volume_id_info :=
  VolumeIdInfo (label_raw id) (label_raw_len id) l
    (uuid_raw id) (uuid_raw_len id) (uuid id) (usage_id id) (usage id).

Definition with_uuid (id : volume_id_info) (u : list byte) : volume_id_info :=
  VolumeIdInfo (label_raw id) (label_raw_len id) (label id)
    (uuid_raw id) (uuid_raw_len id) u (usage_id id) (usage id).

(** ** [usage_to_string], [volume_id_set_usage], [volume_id_set_usage_part] *)

(** The result is the string literal returned, [None] for [NULL]. *)
Definition usage_to_string (E : usage_values) (usage_id : volume_id_usage)
    : option string :=
  if usage_id =? VOLUME_ID_FILESYSTEM E then Some "filesystem"%string
  else if usage_id =? VOLUME_ID_PARTITIONTABLE E
  then Some "partitiontable"%string
  else if usage_id =? VOLUME_ID_OTHER E then Some "other"%string
  else if usage_id =? VOLUME_ID_RAID E then Some "raid"%string
  else if usage_id =? VOLUME_ID_DISKLABEL E then Some "disklabel"%string
  else if usage_id =? VOLUME_ID_CRYPTO E then Some "crypto"%string
  else if usage_id =? VOLUME_ID_UNPROBED E then Some "unprobed"%string
  else if usage_id =? VOLUME_ID_UNUSED E then Some "unused"%string
  else None.

Definition volume_id_set_usage_part (E : usage_values)
    (part : volume_id_partition) (usage_id : volume_id_usage)
    : volume_id_partition :=
  VolumeIdPartition usage_id (usage_to_string E usage_id).

Definition volume_id_set_usage (E : usage_values) (id : volume_id_info)
    (usage_id : volume_id_usage) : volume_id_info :=
  VolumeIdInfo (label_raw id) (label_raw_len id) (label id)
    (uuid_raw id) (uuid_raw_len id) (uuid id)
    usage_id (usage_to_string E usage_id).

(** ** [volume_id_set_label_raw] *)

Definition volume_id_set_label_raw (id : volume_id_info) (buf : list byte)
    (count : Z) : option volume_id_info :=
  raw ← memcpy (label_raw id) buf count;
  Some (VolumeIdInfo raw count (label id)
          (uuid_raw id) (uuid_raw_len id) (uuid id) (usage_id id) (usage id)).

(** ** [volume_id_set_label_string] *)

(** The loop [while (i--) { if (!isspace(s[i])) break; }]: the value of the
    [unsigned int] [i] when it is left.  Leaving it through the test with
    [i = 0] decrements [i] once more, to [2^32 - 1]. *)
Fixpoint strip_scan (s : list byte) (i : nat) : Z :=
  match i with
  | O => u32 (0 - 1)
  | S i' =>
      if negb (isspace (nth i' s x00)) then Z.of_nat i' else strip_scan s i'
  end.

Definition volume_id_set_label_string (id : volume_id_info) (buf : list byte)
    (count : Z) : option volume_id_info :=
  l1 ← memcpy (label id) buf count;
  (* remove trailing whitespace *)
  let i := strip_scan l1 (strnlen l1 (Z.to_nat count)) in
  l2 ← poke l1 (u32 (i + 1)) x00;
  Some (with_label id l2).

(** Reference: a string without its trailing whitespace. *)
Fixpoint rstrip (s : list byte) : list byte :=
  match s with
  | [] => []
  | c :: s' =>
      match rstrip s' with
      | [] => if isspace c then [] else [c]
      | t => c :: t
      end
  end.


(** ** [volume_id_set_label_unicode16] *)

Inductive endian : Type := LE | BE.

(** The 16-bit unit [c] made of the bytes [buf[i]] and [buf[i+1]]; the
    value fits a [__u16]. *)
Definition unit16 (endianess : endian) (b0 b1 : byte) : Z :=
  match endianess with
  | LE => Z.lor (Z.shiftl (byte_val b1) 8) (byte_val b0)
  | BE => Z.lor (Z.shiftl (byte_val b0) 8) (byte_val b1)
  end.

(** The [for] loop, from the test of an iteration on; [fuel] bounds the
    number of iterations.  [None]: an access outside [buf] or [label], or
    no fuel left. *)
Fixpoint unicode16_loop (fuel : nat) (endianess : endian) (buf : list byte)
    (count i j : Z) (lbl : list byte) : option (list byte) :=
  match fuel with
  | O => None
  | S fuel' =>
      if u32 (i + 2) <=? count then
        b0 ← buf !! Z.to_nat i;
        b1 ← buf !! Z.to_nat (i + 1);
        let c := unit16 endianess b0 b1 in
        if c =? 0 then poke lbl j x00
        else if c <? 128 then
          l1 ← poke lbl j (u8 c);
          unicode16_loop fuel' endianess buf count (u32 (i + 2))
            (u32 (j + 1)) l1
        else if c <? 2048 then
          l1 ← poke lbl j (u8 (Z.lor 192 (Z.shiftr c 6)));
          l2 ← poke l1 (u32 (j + 1)) (u8 (Z.lor 128 (Z.land c 63)));
          unicode16_loop fuel' endianess buf count (u32 (i + 2))
            (u32 (j + 2)) l2
        else
          l1 ← poke lbl j (u8 (Z.lor 224 (Z.shiftr c 12)));
          l2 ← poke l1 (u32 (j + 1))
                 (u8 (Z.lor 128 (Z.land (Z.shiftr c 6) 63)));
          l3 ← poke l2 (u32 (j + 2)) (u8 (Z.lor 128 (Z.land c 63)));
          unicode16_loop fuel' endianess buf count (u32 (i + 2))
            (u32 (j + 3)) l3
      else Some lbl
  end.

(** The loop runs at most [count / 2] times and is tested once more. *)
Definition volume_id_set_label_unicode16 (id : volume_id_info)
    (buf : list byte) (endianess : endian) (count : Z)
    : option volume_id_info :=
  l ← unicode16_loop (S (Z.to_nat (count / 2))) endianess buf count 0 0
        (label id);
  Some (with_label id l).

(** Reference: the 16-bit units of a byte sequence. *)
Fixpoint units16 (endianess : endian) (buf : list byte) : list Z :=
  match buf with
  | b0 :: b1 :: rest => unit16 endianess b0 b1 :: units16 endianess rest
  | _ => []
  end.

(** Reference: the units before the first zero unit. *)
Fixpoint until_zero (us : list Z) : list Z :=
  match us with
  | [] => []
  | c :: us' => if c =? 0 then [] else c :: until_zero us'
  end.

(** Reference: the UTF-8 form of a code point below [2^16]. *)
Definition utf8_bytes (c : Z) : list byte :=
  if c <? 128 then [u8 c]
  else if c <? 2048 then [u8 (192 + c / 64); u8 (128 + c mod 64)]
  else [u8 (224 + c / 4096); u8 (128 + (c / 64) mod 64); u8 (128 + c mod 64)].

(** Reference: the UTF-8 form of a code point, one to four bytes; up to
    [U+FFFF] it is what [volume_id_set_label_unicode16] stores for a
    unit. *)
Definition utf8_encode (c : Z) : list byte :=
  if c <? 65536 then utf8_bytes c
  else [u8 (240 + c / 262144); u8 (128 + (c / 4096) mod 64);
        u8 (128 + (c / 64) mod 64); u8 (128 + c mod 64)].

(** Reference: the surrogate range, whose members are no code points of
    UTF-8. *)
Definition surrogate (c : Z) : bool := (55296 <=? c) && (c <=? 57343).

(** Reference: a continuation byte, [10xxxxxx]. *)
Definition continuation (b : byte) : bool :=
  (128 <=? byte_val b) && (byte_val b <? 192).

(** Reference: the UTF-8 decoder.  A sequence is accepted only in its
    shortest form (no lead byte [C0] or [C1], three bytes only from
    [U+0800], four only from [U+10000]), surrogates and values above
    [U+10FFFF] are refused. *)
Fixpoint utf8_decode (s : list byte) : option (list Z) :=
  match s with
  | [] => Some []
  | b1 :: s1 =>
      let v1 := byte_val b1 in
      if v1 <? 128 then cons v1 <$> utf8_decode s1
      else if (194 <=? v1) && (v1 <? 224) then
        match s1 with
        | b2 :: s2 =>
            if continuation b2
            then cons ((v1 - 192) * 64 + (byte_val b2 - 128))
                   <$> utf8_decode s2
            else None
        | [] => None
        end
      else if (224 <=? v1) && (v1 <? 240) then
        match s1 with
        | b2 :: b3 :: s3 =>
            let c := (v1 - 224) * 4096 + (byte_val b2 - 128) * 64
                     + (byte_val b3 - 128) in
            if continuation b2 && continuation b3
               && (2048 <=? c) && negb (surrogate c)
            then cons c <$> utf8_decode s3
            else None
        | _ => None
        end
      else if (240 <=? v1) && (v1 <? 245) then
        match s1 with
        | b2 :: b3 :: b4 :: s4 =>
            let c := (v1 - 240) * 262144 + (byte_val b2 - 128) * 4096
                     + (byte_val b3 - 128) * 64 + (byte_val b4 - 128) in
            if continuation b2 && continuation b3 && continuation b4
               && (65536 <=? c) && (c <=? 1114111)
            then cons c <$> utf8_decode s4
            else None
        | _ => None
        end
      else None
  end.


(** Reference: what the loop of [volume_id_set_label_unicode16] stores for
    a sequence of units: the UTF-8 form of the units before the first zero
    unit, and a NUL if there is a zero unit. *)
Fixpoint unicode16_out (us : list Z) : list byte :=
  match us with
  | [] => []
  | c :: us' => if c =? 0 then [x00] else utf8_bytes c ++ unicode16_out us'
  end.

(** A check of [p] on the [n] integers from [z] on. *)
Fixpoint all_from (n : nat) (z : Z) (p : Z -> bool) : bool :=
  match n with
  | O => true
  | S n' => p z && all_from n' (z + 1) p
  end.


(** ** [volume_id_set_uuid] *)

Inductive uuid_format : Type :=
  | UUID_DOS
  | UUID_NTFS
  | UUID_HFS
  | UUID_DCE
  | UUID_DCE_STRING.

(** [%02X] and [%02x] of a byte: two hexadecimal digits. *)
Definition hex_digit (upper : bool) (n : Z) : byte :=
  if n <? 10 then u8 (48 + n) else u8 ((if upper then 55 else 87) + n).

Definition hex2 (upper : bool) (b : byte) : list byte :=
  [hex_digit upper (byte_val b / 16); hex_digit upper (byte_val b mod 16)].

(** [sprintf(dst, ...)] producing the text [s]: the text and a NUL. *)
Definition sprintf (dst s : list byte) : option (list byte) :=
  if Z.of_nat (length s) <? Z.of_nat (length dst)
  then Some (s ++ x00 :: drop (S (length s)) dst)
  else None.

Definition dash : byte := x2d.

Definition volume_id_set_uuid (id : volume_id_info) (buf : list byte)
    (format : uuid_format) : option volume_id_info :=
  let count :=
    match format with
    | UUID_DOS => 4
    | UUID_NTFS | UUID_HFS => 8
    | UUID_DCE => 16
    | UUID_DCE_STRING => 36
    end in
  raw ← memcpy (uuid_raw id) buf count;
  let id1 := VolumeIdInfo (label_raw id) (label_raw_len id) (label id)
               raw count (uuid id) (usage_id id) (usage id) in
  (* if set, create string in the same format, the native platform uses *)
  if forallb (fun b => Byte.eqb b x00) (take (Z.to_nat count) buf)
  then Some id1
  else
    let b (k : nat) := nth k buf x00 in
    let X := hex2 true in
    let x := hex2 false in
    match format with
    | UUID_DOS =>
        u ← sprintf (uuid id)
              (X (b 3) ++ X (b 2) ++ [dash] ++ X (b 1) ++ X (b 0))%nat;
        Some (with_uuid id1 u)
    | UUID_NTFS =>
        u ← sprintf (uuid id)
              (X (b 7) ++ X (b 6) ++ X (b 5) ++ X (b 4)
               ++ X (b 3) ++ X (b 2) ++ X (b 1) ++ X (b 0))%nat;
        Some (with_uuid id1 u)
    | UUID_HFS =>
        u ← sprintf (uuid id)
              (X (b 0) ++ X (b 1) ++ X (b 2) ++ X (b 3)
               ++ X (b 4) ++ X (b 5) ++ X (b 6) ++ X (b 7))%nat;
        Some (with_uuid id1 u)
    | UUID_DCE =>
        u ← sprintf (uuid id)
              (x (b 0) ++ x (b 1) ++ x (b 2) ++ x (b 3) ++ [dash]
               ++ x (b 4) ++ x (b 5) ++ [dash]
               ++ x (b 6) ++ x (b 7) ++ [dash]
               ++ x (b 8) ++ x (b 9) ++ [dash]
               ++ x (b 10) ++ x (b 11) ++ x (b 12) ++ x (b 13)
               ++ x (b 14) ++ x (b 15))%nat;
        Some (with_uuid id1 u)
    | UUID_DCE_STRING =>
        u1 ← memcpy (uuid id) buf count;
        u2 ← poke u1 count x00;
        Some (with_uuid id1 u2)
    end.

(** Reference: the bytes a UUID text stands for, two hexadecimal digits a
    byte, dashes skipped. *)
Definition hex_value (c : byte) : option Z :=
  let v := byte_val c in
  if (48 <=? v) && (v <=? 57) then Some (v - 48)
  else if (65 <=? v) && (v <=? 70) then Some (v - 55)
  else if (97 <=? v) && (v <=? 102) then Some (v - 87)
  else None.

Fixpoint parse_uuid (s : list byte) : option (list byte) :=
  match s with
  | [] => Some []
  | c :: s' =>
      if Byte.eqb c dash then parse_uuid s'
      else
        match s' with
        | d :: s'' =>
            hi ← hex_value c;
            lo ← hex_value d;
            cons (u8 (hi * 16 + lo)) <$> parse_uuid s''
        | [] => None
        end
  end.

(** Reference: the order in which a format prints the raw bytes. *)
Definition uuid_order (format : uuid_format) (raw : list byte) : list byte :=
  match format with
  | UUID_DOS | UUID_NTFS => rev raw
  | _ => raw
  end.

Definition uuid_size (format : uuid_format) : nat :=
  match format with
  | UUID_DOS => 4
  | UUID_NTFS | UUID_HFS => 8
  | UUID_DCE => 16
  | UUID_DCE_STRING => 36
  end.

(** A source of 40 bytes, 0 to 39, and small capacities to go with it. *)
Definition forty_bytes : list byte :=
  bytes_of (map Z.of_nat (seq 0 40)).

Definition SB_small : Z := 32.
Definition SEEK_small : Z := 16.

(** An identification record with nothing set, with arrays of 64, 65, 36
    and 37 cells, for the examples. *)
Definition blank_info : volume_id_info :=
  VolumeIdInfo (repeat x00 64) 0 (repeat x00 65) (repeat x00 36) 0
    (repeat x00 37) 0 None.

(** Enumerator values for the examples: the enumerators numbered from
    zero. *)
Definition usage_example : usage_values := UsageValues 0 1 2 3 4 5 6 7.

(** * Properties *)

(** ** Arithmetic and list facts *)

Lemma u64_small z : 0 <= z < 2 ^ 64 -> u64 z = z.
Proof. intros H. unfold u64. apply Z.mod_small. exact H. Qed.

Lemma u32_small z : 0 <= z < 2 ^ 32 -> u32 z = z.
Proof. intros H. unfold u32. apply Z.mod_small. exact H. Qed.

Lemma u64_wrapped z : 2 ^ 64 <= z < 2 * 2 ^ 64 -> u64 z = z - 2 ^ 64.
Proof.
  intros H. unfold u64. symmetry.
  apply (Z.mod_unique z (2 ^ 64) 1 (z - 2 ^ 64)); lia.
Qed.

Lemma u32_minus_one : u32 (-1) = 2 ^ 32 - 1.
Proof. reflexivity. Qed.

Lemma slice_length_le data off n :
  0 <= n -> Z.of_nat (length (slice data off n)) <= n.
Proof.
  intros Hn. unfold slice.
  destruct (off <? Z.of_nat (length data)); simpl; [|lia].
  rewrite length_take. lia.
Qed.

Lemma slice_length data off n :
  0 <= off -> 0 <= n -> off + n <= Z.of_nat (length data) ->
  Z.of_nat (length (slice data off n)) = n.
Proof.
  intros Ho Hn Hle. unfold slice.
  destruct (Z.ltb_spec off (Z.of_nat (length data))) as [Hlt|Hge].
  - rewrite length_take, length_drop. lia.
  - simpl. lia.
Qed.

Lemma slice_full_inv data off n :
  0 <= off -> 0 < n -> Z.of_nat (length (slice data off n)) = n ->
  off + n <= Z.of_nat (length data).
Proof.
  intros Ho Hn. unfold slice.
  destruct (Z.ltb_spec off (Z.of_nat (length data))) as [Hlt|Hge].
  - rewrite length_take, length_drop. lia.
  - simpl. lia.
Qed.

Lemma store_length got buf :
  length (store got buf) = Nat.max (length got) (length buf).
Proof. unfold store. rewrite length_app, length_drop. lia. Qed.

Lemma store_take got buf : take (length got) (store got buf) = got.
Proof. unfold store. rewrite take_app_length. reflexivity. Qed.

(** Inside what a region mirrors, a span of the block is the span of the
    source. *)
Lemma mirrors_span data buf off n off' len' :
  mirrors data buf off n ->
  0 <= off <= off' -> 0 <= len' -> off' + len' <= off + n ->
  (off' - off) + len' <= Z.of_nat (length buf)
  /\ take (Z.to_nat len') (drop (Z.to_nat (off' - off)) buf)
     = slice data off' len'
  /\ Z.of_nat (length (slice data off' len')) = len'.
Proof.
  intros (Hn & Hlen & Htake) Hoff Hlen' Hend.
  assert (Hbuf : n <= Z.of_nat (length buf)).
  { assert (Hl := f_equal (fun l => Z.of_nat (length l)) Htake). simpl in Hl.
    rewrite length_take in Hl. lia. }
  destruct (Z.eq_dec len' 0) as [->|Hpos].
  { split; [lia|]. unfold slice. simpl.
    destruct (off' <? Z.of_nat (length data)); simpl; auto. }
  assert (Hdata : off + n <= Z.of_nat (length data)).
  { apply slice_full_inv; lia. }
  split; [lia|]. split; [|apply slice_length; lia].
  unfold slice in Htake |- *.
  destruct (Z.ltb_spec off (Z.of_nat (length data))) as [_|?]; [|lia].
  destruct (Z.ltb_spec off' (Z.of_nat (length data))) as [_|?]; [|lia].
  rewrite take_drop_commute.
  replace (Z.to_nat (off' - off) + Z.to_nat len')%nat
    with (Nat.min (Z.to_nat (off' - off) + Z.to_nat len') (Z.to_nat n)) by lia.
  rewrite <- take_take, Htake, take_take, Nat.min_l by lia.
  rewrite <- take_drop_commute, drop_drop.
  replace (Z.to_nat off + Z.to_nat (off' - off))%nat
    with (Z.to_nat off') by lia.
  reflexivity.
Qed.

Lemma take_length_take {A} (n : nat) (l : list A) :
  take (length (take n l)) l = take n l.
Proof.
  rewrite length_take.
  destruct (Nat.le_gt_cases n (length l)) as [Hle|Hgt].
  - rewrite Nat.min_l by exact Hle. reflexivity.
  - rewrite Nat.min_r by lia. rewrite !take_ge by lia. reflexivity.
Qed.

Lemma slice_slice_length data off n :
  slice data off (Z.of_nat (length (slice data off n))) = slice data off n.
Proof.
  unfold slice. destruct (off <? Z.of_nat (length data)); [|reflexivity].
  rewrite Nat2Z.id. apply take_length_take.
Qed.

Lemma mirrors_nil data off : mirrors data [] off 0.
Proof.
  unfold mirrors. split; [lia|].
  assert (Hs : slice data off 0 = []).
  { unfold slice. destruct (off <? Z.of_nat (length data)); reflexivity. }
  rewrite Hs. auto.
Qed.

(** After a refill the block mirrors what [read] transferred. *)
Lemma mirrors_refill data buf off count :
  mirrors data (store (slice data off count) buf) off
    (Z.of_nat (length (slice data off count))).
Proof.
  unfold mirrors. rewrite slice_slice_length, Nat2Z.id, store_take.
  split; [lia|]. auto.
Qed.

Lemma block_available cap data block off n env buf :
  0 <= cap ->
  region_ok cap data block off n ->
  match block with Some b => Some b | None => malloc env end = Some buf ->
  Z.of_nat (length buf) <= cap /\ mirrors data buf off n.
Proof.
  intros Hcap Hok Hbuf. destruct block as [b|]; simpl in Hok.
  - inversion Hbuf; subst. exact Hok.
  - unfold malloc in Hbuf. destruct (malloc_fails env); inversion Hbuf; subst.
    simpl. split; [lia|]. apply mirrors_nil.
Qed.

Lemma block_unavailable (block : option (list byte)) env :
  match block with Some b => Some b | None => malloc env end = None ->
  block = None.
Proof. destruct block; [discriminate|reflexivity]. Qed.

Lemma slice_all data count :
  Z.of_nat (length data) <= count -> slice data 0 count = data.
Proof.
  intros Hle. unfold slice.
  destruct (Z.ltb_spec 0 (Z.of_nat (length data))) as [Hpos|Hnil].
  - simpl. apply take_ge. lia.
  - destruct data; [reflexivity|simpl in Hnil; lia].
Qed.

(** ** The system calls *)

Lemma lseek_spec env f off pos f1 :
  lseek env f off = (pos, f1) ->
  contents f1 = contents f
  /\ calls f1 = calls f ++ [Lseek off]
  /\ ((pos = -1 /\ position f1 = position f
       /\ (lseek_fails env = true \/ 2 ^ 63 <= off))
      \/ (pos = off /\ position f1 = off
          /\ lseek_fails env = false /\ off < 2 ^ 63)).
Proof.
  unfold lseek. intros H.
  destruct (lseek_fails env) eqn:Hfail; simpl in H.
  - inversion H; subst; simpl. auto 10.
  - destruct (Z.leb_spec (2 ^ 63) off); inversion H; subst; simpl; auto 10.
Qed.

Lemma read_spec env f count r got f2 :
  read env f count = (r, got, f2) ->
  contents f2 = contents f
  /\ calls f2 = calls f ++ [Read count]
  /\ ((read_fails env = true /\ r = -1 /\ got = [])
      \/ (read_fails env = false
          /\ got = slice (contents f) (position f) count
          /\ r = Z.of_nat (length got))).
Proof.
  unfold read. intros H.
  destruct (read_fails env) eqn:Hfail; inversion H; subst; simpl; auto 10.
Qed.

Lemma lseek_reliable env f off :
  lseek_fails env = false -> off < 2 ^ 63 ->
  lseek env f off = (off, File (contents f) off (calls f ++ [Lseek off])).
Proof.
  intros Hok Hoff. unfold lseek. rewrite Hok. simpl.
  rewrite (proj2 (Z.leb_gt _ _) Hoff). reflexivity.
Qed.

Lemma lseek_refused env f off :
  2 ^ 63 <= off ->
  lseek env f off
  = (-1, File (contents f) (position f) (calls f ++ [Lseek off])).
Proof.
  intros Hoff. unfold lseek. rewrite (proj2 (Z.leb_le _ _) Hoff).
  rewrite orb_true_r. reflexivity.
Qed.

Lemma read_reliable env f count :
  read_fails env = false ->
  read env f count
  = (Z.of_nat (length (slice (contents f) (position f) count)),
     slice (contents f) (position f) count,
     File (contents f)
          (position f
           + Z.of_nat (length (slice (contents f) (position f) count)))
          (calls f ++ [Read count])).
Proof. intros Hok. unfold read. rewrite Hok. reflexivity. Qed.

Lemma read_failing env f count :
  read_fails env = true ->
  read env f count
  = (-1, [], File (contents f) (position f) (calls f ++ [Read count])).
Proof. intros Hfail. unfold read. rewrite Hfail. reflexivity. Qed.

Ltac zbool :=
  repeat match goal with
  | H : (_ <=? _) = true |- _ => apply Z.leb_le in H
  | H : (_ <=? _) = false |- _ => apply Z.leb_gt in H
  | H : (_ <? _) = true |- _ => apply Z.ltb_lt in H
  | H : (_ <? _) = false |- _ => apply Z.ltb_ge in H
  | H : (_ =? _) = true |- _ => apply Z.eqb_eq in H
  | H : (_ =? _) = false |- _ => apply Z.eqb_neq in H
  | H : (_ || _) = false |- _ => apply orb_false_iff in H; destruct H
  end.

Ltac io_facts :=
  repeat match goal with
  | H : lseek _ _ _ = _ |- _ =>
      apply lseek_spec in H; destruct H as (? & ? & ?)
  | H : read _ _ _ = _ |- _ =>
      apply read_spec in H; destruct H as (? & ? & ?)
  end.

Ltac log_eq :=
  repeat match goal with
  | H : calls _ = _ |- _ => rewrite H
  | H : contents _ = _ |- _ => rewrite H
  end;
  rewrite <- ?app_assoc; simpl.

Section Properties.

(** The values of [SB_BUFFER_SIZE] and [SEEK_BUFFER_SIZE]. *)
Variable SB : Z.
Variable SEEK : Z.

(** ** Which region serves a call *)

Lemma front_dispatch env id f off len :
  u64 (off + len) <= SB ->
  front_outcome off (u64 (off + len)) id f
    (volume_id_get_buffer SB SEEK env id f off len).
Proof.
  intros Hfront. unfold volume_id_get_buffer. cbv zeta.
  rewrite (proj2 (Z.leb_le _ _) Hfront).
  repeat case_match; io_facts;
    unfold front_outcome, window_untouched; simpl;
    (split; [auto|]); (split; [auto|]); split; auto; log_eq; auto.
Qed.

Lemma window_dispatch env id f off len :
  SB < u64 (off + len) ->
  window_outcome off len id f
    (volume_id_get_buffer SB SEEK env id f off len).
Proof.
  intros Hwin. unfold volume_id_get_buffer. cbv zeta.
  rewrite (proj2 (Z.leb_gt _ _) Hwin).
  repeat case_match; io_facts;
    unfold window_outcome, front_untouched; simpl;
    (split; [eauto|]); (split; [auto|]); split; auto; log_eq; auto.
Qed.

(** A request routed to the seek buffer and longer than its capacity is
    refused before anything is allocated, sought or read. *)
Lemma too_large_rejected env id f off len :
  SB < u64 (off + len) ->
  SEEK < len ->
  volume_id_get_buffer SB SEEK env id f off len = (Null RequestTooLarge, id, f).
Proof.
  intros Hwin Hlen. unfold volume_id_get_buffer. cbv zeta.
  rewrite (proj2 (Z.leb_gt _ _) Hwin), (proj2 (Z.ltb_lt _ _) Hlen).
  reflexivity.
Qed.

Lemma front_serves env id f off len :
  u64 (off + len) <= SB ->
  front_served env off (u64 (off + len)) id f
    (volume_id_get_buffer SB SEEK env id f off len).
Proof.
  intros Hfront. unfold volume_id_get_buffer, front_served, malloc. cbv zeta.
  rewrite (proj2 (Z.leb_le _ _) Hfront).
  assert (Hcase : forall buf,
    let id1 := VolumeId (Some buf) (sbbuf_len id)
                 (seekbuf id) (seekbuf_off id) (seekbuf_len id) in
    (sbbuf id <> None -> id1 = id) ->
    let '(r, id', f') :=
      if sbbuf_len id <? u64 (off + len) then
        let '(_, f1) := lseek env f 0 in
        let '(n, got, f2) := read env f1 (u64 (off + len)) in
        let id2 := VolumeId (Some (store got buf)) (u32 n)
                     (seekbuf id) (seekbuf_off id) (seekbuf_len id) in
        if u32 n <? u64 (off + len)
        then (Null InsufficientData, id2, f2)
        else (Ok (SbPtr off), id2, f2)
      else (Ok (SbPtr off), id1, f) in
    window_untouched id id'
    /\ contents f' = contents f
    /\ sbbuf id' <> None
    /\ if sbbuf_len id <? u64 (off + len)
       then
         calls f' = calls f ++ [Lseek 0; Read (u64 (off + len))]
         /\ r = (if sbbuf_len id' <? u64 (off + len)
                 then Null InsufficientData else Ok (SbPtr off))
         /\ (lseek_fails env = false -> read_fails env = false ->
             sbbuf_len id'
             = u32 (Z.of_nat
                      (length (slice (contents f) 0 (u64 (off + len))))))
       else
         r = Ok (SbPtr off) /\ f' = f
         /\ sbbuf_len id' = sbbuf_len id
         /\ (sbbuf id <> None -> id' = id)).
  { intros buf id1 Hsame.
    destruct (sbbuf_len id <? u64 (off + len)) eqn:Hmiss.
    - destruct (lseek env f 0) as [pos f1] eqn:Hls.
      destruct (read env f1 (u64 (off + len))) as [[n got] f2] eqn:Hrd.
      assert (Hrel : lseek_fails env = false -> read_fails env = false ->
                u32 n = u32 (Z.of_nat
                  (length (slice (contents f) 0 (u64 (off + len)))))).
      { intros Hs Hr. rewrite lseek_reliable in Hls by (auto; lia).
        inversion Hls; subst f1. rewrite read_reliable in Hrd by auto.
        simpl in Hrd. inversion Hrd; subst. reflexivity. }
      io_facts.
      destruct (u32 n <? u64 (off + len)) eqn:Hshort;
        unfold window_untouched; simpl; rewrite Hshort;
        repeat split; auto; try discriminate; log_eq; reflexivity.
    - unfold window_untouched, id1; simpl.
      repeat split; auto; discriminate. }
  destruct (sbbuf id) as [buf|] eqn:Hsb.
  - specialize (Hcase buf).
    assert (Hsame : sbbuf id <> None ->
              VolumeId (Some buf) (sbbuf_len id)
                (seekbuf id) (seekbuf_off id) (seekbuf_len id) = id).
    { intros _. destruct id; simpl in *; congruence. }
    rewrite Hsb in Hsame. specialize (Hcase Hsame).
    destruct (if sbbuf_len id <? u64 (off + len) then _ else _)
      as [[r id'] f'].
    destruct Hcase as (Hw & Hc & Hrest). auto.
  - destruct (malloc_fails env) eqn:Hm.
    + unfold window_untouched. auto.
    + specialize (Hcase []
                  ltac:(intros Hn; exfalso; apply Hn; reflexivity)).
      destruct (if sbbuf_len id <? u64 (off + len) then _ else _)
        as [[r id'] f'].
      destruct Hcase as (Hw & Hc & Hrest). auto.
Qed.

Lemma window_serves env id f off len :
  0 <= off ->
  SB < u64 (off + len) ->
  window_served SEEK env off len (u64 (off + len)) id f
    (volume_id_get_buffer SB SEEK env id f off len).
Proof.
  intros Hoff0 Hwin. unfold volume_id_get_buffer, window_served, malloc.
  cbv zeta.
  rewrite (proj2 (Z.leb_gt _ _) Hwin).
  destruct (SEEK <? len) eqn:Hbig.
  { unfold front_untouched. auto 10. }
  set (miss := (off <? seekbuf_off id)
               || (u64 (seekbuf_off id + seekbuf_len id)
                   <? u64 (off + len))).
  assert (Hcase : forall buf,
    let id1 := VolumeId (sbbuf id) (sbbuf_len id)
                 (Some buf) (seekbuf_off id) (seekbuf_len id) in
    (seekbuf id <> None -> id1 = id) ->
    let '(r, id', f') :=
      if miss then
        let '(pos, f1) := lseek env f off in
        if pos =? -1 then (Null IoFailure, id1, f1)
        else
          let '(n, got, f2) := read env f1 len in
          let id2 := VolumeId (sbbuf id) (sbbuf_len id)
                       (Some (store got buf)) off (u32 n) in
          if u32 n <? len
          then (Null InsufficientData, id2, f2)
          else (Ok (SeekPtr (u64 (off - seekbuf_off id2))), id2, f2)
      else (Ok (SeekPtr (u64 (off - seekbuf_off id))), id1, f) in
    front_untouched id id'
    /\ contents f' = contents f
    /\ seekbuf id' <> None
    /\ if miss
       then
         if lseek_fails env || (2 ^ 63 <=? off)
         then
           r = Null IoFailure
           /\ calls f' = calls f ++ [Lseek off]
           /\ seekbuf_off id' = seekbuf_off id
           /\ seekbuf_len id' = seekbuf_len id
         else
           calls f' = calls f ++ [Lseek off; Read len]
           /\ seekbuf_off id' = off
           /\ r = (if seekbuf_len id' <? len
                   then Null InsufficientData else Ok (SeekPtr 0))
           /\ (read_fails env = false ->
               seekbuf_len id'
               = u32 (Z.of_nat (length (slice (contents f) off len))))
       else
         r = Ok (SeekPtr (u64 (off - seekbuf_off id))) /\ f' = f
         /\ seekbuf_off id' = seekbuf_off id
         /\ seekbuf_len id' = seekbuf_len id
         /\ (seekbuf id <> None -> id' = id)).
  { intros buf id1 Hsame. destruct miss.
    - unfold lseek.
      destruct (lseek_fails env || (2 ^ 63 <=? off)) eqn:Hfail.
      + simpl. unfold front_untouched, id1; simpl.
        repeat split; auto; discriminate.
      + apply orb_false_iff in Hfail. destruct Hfail as [_ Hoff].
        apply Z.leb_gt in Hoff.
        destruct (Z.eqb_spec off (-1)) as [Hneg|_]; [lia|].
        destruct (read env _ len) as [[n got] f2] eqn:Hrd.
        assert (Hrel : read_fails env = false ->
                  u32 n = u32 (Z.of_nat
                                 (length (slice (contents f) off len)))).
        { intros Hr. rewrite read_reliable in Hrd by auto.
          simpl in Hrd. inversion Hrd; subst. reflexivity. }
        io_facts. simpl in *.
        destruct (u32 n <? len) eqn:Hshort;
          unfold front_untouched; simpl; rewrite Hshort, ?Z.sub_diag;
          repeat split; auto; try discriminate; log_eq; reflexivity.
    - unfold front_untouched, id1; simpl.
      repeat split; auto; discriminate. }
  destruct (seekbuf id) as [buf|] eqn:Hsk.
  - assert (Hsame : VolumeId (sbbuf id) (sbbuf_len id)
                      (Some buf) (seekbuf_off id) (seekbuf_len id) = id)
      by (destruct id; simpl in *; congruence).
    specialize (Hcase buf (fun _ => Hsame)).
    destruct (if miss then _ else _) as [[r id'] f'].
    destruct Hcase as (Hw & Hc & Hrest). auto.
  - destruct (malloc_fails env) eqn:Hm.
    + unfold front_untouched. auto.
    + specialize (Hcase []
                  ltac:(intros Hn; exfalso; apply Hn; reflexivity)).
      destruct (if miss then _ else _) as [[r id'] f'].
      destruct Hcase as (Hw & Hc & Hrest). auto.
Qed.

(** ** Invariants of the cache *)

Lemma closed_buffers_inv data :
  0 <= SB ->
  cache_inv SB SEEK data closed_buffers.
Proof. intros _. unfold cache_inv, closed_buffers, region_ok. simpl. lia. Qed.

Lemma get_buffer_front_sound data env id f off len r id' f' :
  0 <= SB < 2 ^ 32 ->
  lseek_fails env = false -> read_fails env = false ->
  0 <= off -> 0 <= len -> off + len <= SB ->
  cache_inv SB SEEK data id -> contents f = data ->
  volume_id_get_buffer SB SEEK env id f off len = (r, id', f') ->
  cache_inv SB SEEK data id'
  /\ contents f' = data
  /\ (forall p, r = Ok p ->
        deref id' p len = Some (slice data off len)
        /\ Z.of_nat (length (slice data off len)) = len).
Proof.
  intros HSB Hseek Hread Hoff Hlen Hfit (Hfr & Hwin & Hrange) Hdata.
  subst data.
  unfold volume_id_get_buffer. cbv zeta.
  rewrite (u64_small (off + len)) by lia.
  rewrite (proj2 (Z.leb_le _ _) Hfit).
  destruct (match sbbuf id with Some b => Some b | None => malloc env end)
    as [buf|] eqn:Hbuf.
  2:{ intros H; inversion H; subst. unfold cache_inv.
      split; [auto|]. split; [auto|]. intros p Hp; discriminate. }
  destruct (block_available _ _ _ _ _ _ _ (proj1 HSB) Hfr Hbuf) as [Hcap Hmir].
  destruct (Z.ltb_spec (sbbuf_len id) (off + len)) as [Hmiss|Hhit].
  - rewrite lseek_reliable by (auto; lia).
    rewrite read_reliable by auto. simpl.
    set (got := slice (contents f) 0 (off + len)).
    assert (Hgot : Z.of_nat (length got) <= off + len)
      by (apply slice_length_le; lia).
    rewrite (u32_small (Z.of_nat (length got))) by lia.
    assert (Hinv : cache_inv SB SEEK (contents f)
              (VolumeId (Some (store got buf)) (Z.of_nat (length got))
                 (seekbuf id) (seekbuf_off id) (seekbuf_len id))).
    { unfold cache_inv, region_ok; simpl. split; [|auto].
      split; [rewrite store_length; lia|apply mirrors_refill]. }
    destruct (Z.ltb_spec (Z.of_nat (length got)) (off + len)) as [Hshort|Hfull];
      intros H; inversion H; subst; clear H.
    + split; [exact Hinv|]. split; [reflexivity|]. intros p Hp; discriminate.
    + split; [exact Hinv|]. split; [reflexivity|].
      intros p Hp; inversion Hp; subst; clear Hp.
      destruct (mirrors_span (contents f) (store got buf) 0
                  (Z.of_nat (length got)) off len
                  (mirrors_refill (contents f) buf 0 (off + len)))
        as (Hin & Hspan & Hfulllen); try lia.
      rewrite Z.sub_0_r in Hin, Hspan.
      unfold deref; simpl. rewrite (proj2 (Z.leb_le _ _) Hin), Hspan. auto.
  - intros H; inversion H; subst; clear H.
    split; [unfold cache_inv, region_ok; simpl; auto|].
    split; [reflexivity|].
    intros p Hp; inversion Hp; subst; clear Hp.
    destruct (mirrors_span _ _ _ _ off len Hmir) as (Hin & Hspan & Hfulllen);
      try lia.
    rewrite Z.sub_0_r in Hin, Hspan.
    unfold deref; simpl. rewrite (proj2 (Z.leb_le _ _) Hin), Hspan. auto.
Qed.

Lemma get_buffer_window_sound data env id f off len r id' f' :
  SB < off + len ->
  lseek_fails env = false -> read_fails env = false ->
  0 <= off -> is_u32 len -> off + len < 2 ^ 64 ->
  cache_inv SB SEEK data id -> contents f = data ->
  volume_id_get_buffer SB SEEK env id f off len = (r, id', f') ->
  cache_inv SB SEEK data id'
  /\ contents f' = data
  /\ (forall p, r = Ok p ->
        deref id' p len = Some (slice data off len)
        /\ Z.of_nat (length (slice data off len)) = len).
Proof.
  intros Hwin Hseek Hread Hoff [Hlen Hlen32] Hnowrap.
  intros (Hfr & Hwn & Hoff0 & Hend) Hdata.
  subst data.
  unfold volume_id_get_buffer. cbv zeta.
  rewrite (u64_small (off + len)) by lia.
  rewrite (proj2 (Z.leb_gt _ _) Hwin).
  destruct (Z.ltb_spec SEEK len) as [Hbig|Hsmall].
  { intros H; inversion H; subst. unfold cache_inv.
    split; [auto|]. split; [auto|]. intros p Hp; discriminate. }
  destruct (match seekbuf id with Some b => Some b | None => malloc env end)
    as [buf|] eqn:Hbuf.
  2:{ intros H; inversion H; subst. unfold cache_inv.
      split; [auto|]. split; [auto|]. intros p Hp; discriminate. }
  assert (Hcap0 : 0 <= SEEK) by lia.
  destruct (block_available _ _ _ _ _ _ _ Hcap0 Hwn Hbuf) as [Hcap Hmir].
  assert (Hvalid : 0 <= seekbuf_len id) by (destruct Hmir; lia).
  rewrite (u64_small (seekbuf_off id + seekbuf_len id)) by lia.
  destruct ((off <? seekbuf_off id)
            || (seekbuf_off id + seekbuf_len id <? off + len)) eqn:Hmiss.
  - destruct (Z.le_gt_cases (2 ^ 63) off) as [Hhuge|Hok].
    + rewrite lseek_refused by exact Hhuge. simpl.
      intros H; inversion H; subst; clear H.
      split; [unfold cache_inv, region_ok; simpl; auto|].
      split; [reflexivity|]. intros p Hp; discriminate.
    + rewrite lseek_reliable by (auto; lia).
      rewrite (proj2 (Z.eqb_neq off (-1))) by lia.
      rewrite read_reliable by auto. simpl.
      set (got := slice (contents f) off len).
      assert (Hgot : Z.of_nat (length got) <= len)
        by (apply slice_length_le; lia).
      rewrite (u32_small (Z.of_nat (length got))) by lia.
      assert (Hinv : cache_inv SB SEEK (contents f)
                (VolumeId (sbbuf id) (sbbuf_len id)
                   (Some (store got buf)) off (Z.of_nat (length got)))).
      { unfold cache_inv, region_ok; simpl. split; [auto|].
        split; [|lia].
        split; [rewrite store_length; lia|apply mirrors_refill]. }
      destruct (Z.ltb_spec (Z.of_nat (length got)) len) as [Hshort|Hfull];
        intros H; inversion H; subst; clear H.
      * split; [exact Hinv|]. split; [reflexivity|]. intros p Hp; discriminate.
      * split; [exact Hinv|]. split; [reflexivity|].
        intros p Hp; inversion Hp; subst; clear Hp.
        destruct (mirrors_span (contents f) (store got buf) off
                    (Z.of_nat (length got)) off len
                    (mirrors_refill (contents f) buf off len))
          as (Hin & Hspan & Hfulllen); try lia.
        rewrite Z.sub_diag in Hin, Hspan |- *. rewrite u64_small by lia.
        unfold deref; simpl. rewrite (proj2 (Z.leb_le _ _) Hin), Hspan. auto.
  - zbool.
    intros Hout; inversion Hout; subst; clear Hout.
    split; [unfold cache_inv, region_ok; simpl; auto|].
    split; [reflexivity|].
    intros p Hp; inversion Hp; subst; clear Hp.
    destruct (mirrors_span _ _ _ _ off len Hmir) as (Hin & Hspan & Hfulllen);
      try lia.
    rewrite (u64_small (off - seekbuf_off id)) by lia.
    unfold deref; simpl. rewrite (proj2 (Z.leb_le _ _) Hin), Hspan. auto.
Qed.

(** Over a reliable source and without wrap-around of [off + len], a call
    keeps the invariant and a pointer it returns addresses exactly the
    requested bytes of the source. *)
Lemma get_buffer_sound data q id f r id' f' :
  0 <= SB < 2 ^ 32 ->
  plain q ->
  cache_inv SB SEEK data id -> contents f = data ->
  volume_id_get_buffer SB SEEK (req_env q) id f (req_off q) (req_len q)
  = (r, id', f') ->
  cache_inv SB SEEK data id'
  /\ contents f' = data
  /\ (forall p, r = Ok p ->
        seen id' r (req_len q) = Some (slice data (req_off q) (req_len q))
        /\ Z.of_nat (length (slice data (req_off q) (req_len q))) = req_len q).
Proof.
  intros HSB (Hseek & Hread & [Hoff _] & Hlen & Hnowrap) Hinv Hdata Hcall.
  assert (Hboth :
    cache_inv SB SEEK data id'
    /\ contents f' = data
    /\ (forall p, r = Ok p ->
          deref id' p (req_len q) = Some (slice data (req_off q) (req_len q))
          /\ Z.of_nat (length (slice data (req_off q) (req_len q)))
             = req_len q)).
  { destruct (Z.le_gt_cases (req_off q + req_len q) SB).
    - eapply get_buffer_front_sound; eauto. destruct Hlen; lia.
    - eapply get_buffer_window_sound; eauto. }
  destruct Hboth as (Hinv' & Hdata' & Hview).
  split; [exact Hinv'|]. split; [exact Hdata'|].
  intros p Hp. subst r. simpl. apply Hview. reflexivity.
Qed.

Lemma run_sound data reqs : forall id f rs id' f',
  0 <= SB < 2 ^ 32 ->
  Forall plain reqs ->
  cache_inv SB SEEK data id -> contents f = data ->
  run SB SEEK reqs id f = (rs, id', f') ->
  cache_inv SB SEEK data id'
  /\ contents f' = data
  /\ Forall2 (fun q a =>
        forall p, fst a = Ok p ->
          snd a = Some (slice data (req_off q) (req_len q))
          /\ Z.of_nat (length (slice data (req_off q) (req_len q))) = req_len q)
       reqs rs.
Proof.
  induction reqs as [|q reqs IH];
    intros id f rs id' f' HSB Hplain Hinv Hdata Hrun.
  - simpl in Hrun. inversion Hrun; subst. auto.
  - simpl in Hrun. inversion Hplain as [|? ? Hq Hrest]; subst.
    destruct (volume_id_get_buffer SB SEEK (req_env q) id f
                (req_off q) (req_len q))
      as [[r id1] f1] eqn:Hcall.
    destruct (run SB SEEK reqs id1 f1)
      as [[rs' id2] f2] eqn:Hrest'.
    inversion Hrun; subst; clear Hrun.
    destruct (get_buffer_sound _ _ _ _ _ _ _ HSB Hq Hinv eq_refl Hcall)
      as (Hinv1 & Hdata1 & Hview).
    destruct (IH _ _ _ _ _ HSB Hrest Hinv1 Hdata1 Hrest')
      as (Hinv2 & Hdata2 & Hall).
    split; [exact Hinv2|]. split; [exact Hdata2|].
    constructor; [|exact Hall]. simpl. exact Hview.
Qed.

(** X1. From the start of a session, over a source whose seeks and reads
    succeed and for requests whose end does not pass [2^64], every pointer
    returned addresses exactly the requested bytes of the source, however
    superblock and seek buffer requests are interleaved. *)
Corollary run_round_trip data reqs rs id' f' :
  0 <= SB < 2 ^ 32 ->
  Forall plain reqs ->
  run SB SEEK reqs closed_buffers (File data 0 []) = (rs, id', f') ->
  Forall2 (fun q a =>
     forall p, fst a = Ok p ->
       snd a = Some (slice data (req_off q) (req_len q))
       /\ Z.of_nat (length (slice data (req_off q) (req_len q))) = req_len q)
    reqs rs.
Proof.
  intros HSB Hplain Hrun.
  eapply run_sound in Hrun; eauto.
  - apply Hrun.
  - apply closed_buffers_inv. lia.
Qed.

(** A request inside what the superblock buffer holds is answered from
    it: nothing is allocated, sought or read, nothing changes. *)
Lemma front_hit env id f off len :
  sbbuf id <> None ->
  0 <= off + len < 2 ^ 64 ->
  off + len <= SB ->
  off + len <= sbbuf_len id ->
  volume_id_get_buffer SB SEEK env id f off len = (Ok (SbPtr off), id, f).
Proof.
  intros Halloc Hsum Hfit Hvalid. unfold volume_id_get_buffer. cbv zeta.
  rewrite (u64_small (off + len)) by lia.
  rewrite (proj2 (Z.leb_le _ _) Hfit).
  destruct id as [[buf|] n sk so sl]; simpl in *; [|congruence].
  rewrite (proj2 (Z.ltb_ge _ _) Hvalid). reflexivity.
Qed.

(** A call served by the superblock buffer that returns a pointer leaves
    the buffer allocated and valid up to the end of the request. *)
Lemma front_success_covers env id f off len p id' f' :
  u64 (off + len) <= SB ->
  volume_id_get_buffer SB SEEK env id f off len = (Ok p, id', f') ->
  sbbuf id' <> None /\ u64 (off + len) <= sbbuf_len id'.
Proof.
  intros Hfit. unfold volume_id_get_buffer. cbv zeta.
  rewrite (proj2 (Z.leb_le _ _) Hfit).
  repeat case_match; intros Hout; inversion Hout; subst; simpl; zbool;
    split; (congruence || lia).
Qed.

Lemma cache_inv_within_capacity data id :
  cache_inv SB SEEK data id ->
  within_capacity SB SEEK id.
Proof.
  intros (Hfr & Hwn & _). unfold region_ok in *.
  split; intros buf Hbuf; rewrite Hbuf in *; tauto.
Qed.

Lemma read_length_le env f count r got f2 :
  0 <= count -> read env f count = (r, got, f2) ->
  Z.of_nat (length got) <= count.
Proof.
  intros Hcount Hrd. apply read_spec in Hrd.
  destruct Hrd as (_ & _ & [(_ & _ & ->)|(_ & -> & _)]).
  - simpl. lia.
  - apply slice_length_le. exact Hcount.
Qed.

Lemma u64_nonneg z : 0 <= u64 z.
Proof. unfold u64. apply Z.mod_pos_bound. lia. Qed.

(** Whatever the environment does, no call writes past the end of a
    block. *)
Lemma get_buffer_within_capacity env id f off len r id' f' :
  0 <= SB -> 0 <= len ->
  within_capacity SB SEEK id ->
  volume_id_get_buffer SB SEEK env id f off len = (r, id', f') ->
  within_capacity SB SEEK id'.
Proof.
  intros HSB Hlen [Hsb Hsk]. unfold volume_id_get_buffer, malloc. cbv zeta.
  pose proof (u64_nonneg (off + len)) as Hwant.
  repeat case_match; intros Hout; inversion Hout; subst; zbool;
    split; simpl; intros b Hb; simplify_eq; auto;
    try (rewrite store_length);
    repeat match goal with
    | H : read _ _ _ = _ |- _ => apply read_length_le in H; [|lia]
    | H : sbbuf _ = Some _ |- _ => apply Hsb in H
    | H : seekbuf _ = Some _ |- _ => apply Hsk in H
    end; simpl in *;
    try (specialize (Hsb _ eq_refl)); try (specialize (Hsk _ eq_refl)); lia.
Qed.

(** ** The claims *)

(** C7. For every [off], [len] with [off + len <= SB_BUFFER_SIZE]: once a
    call for that range has returned a pointer, any sequence of further
    calls for the same range or a sub-range of it returns pointers into
    the superblock buffer and leaves the cache and the file, hence the log
    of seeks and reads, exactly as they were. *)
Theorem front_hits_issue_no_io env id f off len p id' f' reqs :
  0 <= off -> 0 <= len ->
  off + len <= SB -> SB < 2 ^ 64 ->
  volume_id_get_buffer SB SEEK env id f off len = (Ok p, id', f') ->
  Forall (within off len) reqs ->
  run SB SEEK reqs id' f'
  = (map (fun q => (Ok (SbPtr (req_off q)),
                    deref id' (SbPtr (req_off q)) (req_len q))) reqs,
     id', f').
Proof.
  intros Hoff Hlen Hfit HSB Hcall Hsub.
  assert (Hsum : u64 (off + len) = off + len) by (apply u64_small; lia).
  destruct (front_success_covers env id f off len p id' f') as [Halloc Hvalid];
    [lia|exact Hcall|].
  rewrite Hsum in Hvalid. clear Hcall.
  induction Hsub as [|q reqs (Hlo & Hqlen & Hhi) _ IH]; [reflexivity|].
  simpl. rewrite front_hit by (auto; lia). rewrite IH. reflexivity.
Qed.

(** C3. A request with [off + len = SB_BUFFER_SIZE] is served by the
    superblock buffer: unless no block can be had, a buffer valid up to
    [SB_BUFFER_SIZE] answers with [&sbbuf[off]] and no system call, and any
    other is refilled by one [lseek] to 0 and one [read] of
    [SB_BUFFER_SIZE] bytes, the call returning [&sbbuf[off]] exactly when
    the refill makes the buffer valid up to [SB_BUFFER_SIZE]; the seek
    buffer fields are untouched.  A request with
    [off + len = SB_BUFFER_SIZE + 1] is served by the seek buffer: it is
    refused if [len] exceeds [SEEK_BUFFER_SIZE]; else, unless no block can
    be had, a window holding the request answers with
    [&seekbuf[off - seekbuf_off]] and no system call, and any other is
    moved by one [lseek] to [off] and one [read] of [len] bytes, the call
    returning [&seekbuf[0]] exactly when [len] bytes become valid; the
    superblock buffer fields are untouched. *)
Theorem boundary_dispatch env id f off len :
  0 <= off -> 0 <= len -> SB + 1 < 2 ^ 64 ->
  (off + len = SB ->
   front_served env off SB id f
     (volume_id_get_buffer SB SEEK env id f off len))
  /\ (off + len = SB + 1 ->
      window_served SEEK env off len (SB + 1) id f
        (volume_id_get_buffer SB SEEK env id f off len)).
Proof.
  intros Hoff Hlen HSB. split; intros Hsum.
  - assert (Hw : u64 (off + len) = SB)
      by (rewrite u64_small; lia).
    rewrite <- Hw at 1. apply front_serves. lia.
  - assert (Hw : u64 (off + len) = SB + 1)
      by (rewrite u64_small; lia).
    rewrite <- Hw at 1. apply window_serves; lia.
Qed.

(** C9. The region is selected on [off + len] modulo [2^64]: when the true
    sum is [2^64] or more and the wrapped sum is at most [SB_BUFFER_SIZE],
    the call is served by the superblock buffer, with the wrapped sum as
    the number of bytes wanted and [off] itself as the index of the
    pointer returned.  It is neither routed to the seek buffer nor refused
    as too large: unless no block can be had, a buffer valid up to the
    wrapped sum answers with [&sbbuf[off]] and no system call, and any
    other is refilled by one [lseek] to 0 and one [read] of as many bytes
    as the wrapped sum, the call returning [&sbbuf[off]] exactly when the
    refill makes the buffer valid up to the wrapped sum. *)
Theorem wrapped_sum_selects_front env id f off len :
  is_u64 off -> is_u32 len ->
  2 ^ 64 <= off + len ->
  off + len - 2 ^ 64 <= SB ->
  front_served env off (off + len - 2 ^ 64) id f
    (volume_id_get_buffer SB SEEK env id f off len)
  /\ (sbbuf id <> None -> off + len - 2 ^ 64 <= sbbuf_len id ->
      volume_id_get_buffer SB SEEK env id f off len = (Ok (SbPtr off), id, f)).
Proof.
  intros [Hoff0 Hoff] [Hlen0 Hlen] Hwrap Hfit.
  assert (Hw : u64 (off + len) = off + len - 2 ^ 64)
    by (apply u64_wrapped; lia).
  split.
  - rewrite <- Hw. apply front_serves. lia.
  - intros Halloc Hvalid. unfold volume_id_get_buffer. cbv zeta. rewrite Hw.
    rewrite (proj2 (Z.leb_le _ _) Hfit).
    destruct id as [[buf|] n sk so sl]; simpl in *; [|congruence].
    rewrite (proj2 (Z.ltb_ge _ _) Hvalid). reflexivity.
Qed.

(** C10. A call served by the superblock buffer leaves [seekbuf],
    [seekbuf_off] and [seekbuf_len] unchanged; a call served by the seek
    buffer, whatever it returns, leaves [sbbuf] and [sbbuf_len]
    unchanged. *)
Theorem regions_are_framed env id f off len r id' f' :
  volume_id_get_buffer SB SEEK env id f off len = (r, id', f') ->
  (u64 (off + len) <= SB -> window_untouched id id')
  /\ (SB < u64 (off + len) -> front_untouched id id').
Proof.
  intros Hcall. split; intros Hsel.
  - pose proof (front_dispatch env id f off len Hsel) as Hout.
    rewrite Hcall in Hout. apply Hout.
  - pose proof (window_dispatch env id f off len Hsel) as Hout.
    rewrite Hcall in Hout. apply Hout.
Qed.

(** [volume_id_free_buffer] twice is [volume_id_free_buffer] once. *)
Lemma free_buffer_idempotent id :
  volume_id_free_buffer (volume_id_free_buffer id) = volume_id_free_buffer id.
Proof. destruct id as [[?|] ? [?|] ? ?]; reflexivity. Qed.

Lemma closed_buffers_unallocated_empty : unallocated_empty closed_buffers.
Proof. split; reflexivity. Qed.

Lemma free_buffer_keeps_unallocated_empty id :
  unallocated_empty id -> unallocated_empty (volume_id_free_buffer id).
Proof.
  intros [Hsb Hsk].
  destruct id as [[?|] ? [?|] ? ?]; split; simpl in *; auto; congruence.
Qed.

Lemma get_buffer_keeps_unallocated_empty env id f off len r id' f' :
  unallocated_empty id ->
  volume_id_get_buffer SB SEEK env id f off len = (r, id', f') ->
  unallocated_empty id'.
Proof.
  intros [Hsb Hsk]. unfold volume_id_get_buffer. cbv zeta.
  repeat case_match; intros Hout; inversion Hout; subst;
    split; simpl; intros Hnull; auto; congruence.
Qed.

(** X8. In every state the two operations reach from the initial one,
    whatever is requested and whatever fails, an unallocated buffer has
    valid length 0. *)
Lemma reachable_unallocated_empty id :
  reachable SB SEEK id -> unallocated_empty id.
Proof.
  induction 1 as [|env id f off len r id' f' _ IH Hcall|id _ IH].
  - apply closed_buffers_unallocated_empty.
  - eapply get_buffer_keeps_unallocated_empty; eauto.
  - apply free_buffer_keeps_unallocated_empty. exact IH.
Qed.

(** C8. In every state of the cache (one in which an unallocated region
    has valid length 0, as all states the two operations reach have),
    [volume_id_free_buffer] leaves both buffers unallocated and both valid
    lengths 0, whether or not they were allocated before; and calling it a
    second time changes nothing. *)
Theorem free_buffer_releases_all id :
  unallocated_empty id ->
  let id' := volume_id_free_buffer id in
  sbbuf id' = None /\ sbbuf_len id' = 0
  /\ seekbuf id' = None /\ seekbuf_len id' = 0
  /\ seekbuf_off id' = seekbuf_off id
  /\ volume_id_free_buffer id' = id'.
Proof.
  intros [Hsb Hsk]. simpl. rewrite free_buffer_idempotent.
  destruct id as [[?|] ? [?|] ? ?]; simpl in *; auto 10.
Qed.

(** The superblock buffer of a call: the block already there, or a fresh
    one. *)
Lemma front_block env id :
  sbbuf id <> None \/ malloc_fails env = false ->
  exists buf,
    match sbbuf id with Some b => Some b | None => malloc env end = Some buf.
Proof.
  intros [Halloc|Hmalloc].
  - destruct (sbbuf id) as [b|]; [eauto|congruence].
  - destruct (sbbuf id) as [b|]; [eauto|].
    unfold malloc. rewrite Hmalloc. eauto.
Qed.

Lemma window_block env id :
  seekbuf id <> None \/ malloc_fails env = false ->
  exists buf,
    match seekbuf id with Some b => Some b | None => malloc env end = Some buf.
Proof.
  intros [Halloc|Hmalloc].
  - destruct (seekbuf id) as [b|]; [eauto|congruence].
  - destruct (seekbuf id) as [b|]; [eauto|].
    unfold malloc. rewrite Hmalloc. eauto.
Qed.

(** A refill of the superblock buffer seeks to 0 and reads up to the end
    of the request, whatever comes of it. *)
Lemma front_refill_log env id f off len r id' f' :
  u64 (off + len) <= SB ->
  sbbuf_len id < u64 (off + len) ->
  sbbuf id <> None \/ malloc_fails env = false ->
  volume_id_get_buffer SB SEEK env id f off len = (r, id', f') ->
  calls f' = calls f ++ [Lseek 0; Read (u64 (off + len))].
Proof.
  intros Hfit Hmiss Hblock. unfold volume_id_get_buffer. cbv zeta.
  rewrite (proj2 (Z.leb_le _ _) Hfit).
  destruct (front_block env id Hblock) as [buf ->].
  rewrite (proj2 (Z.ltb_lt _ _) Hmiss).
  repeat case_match; intros Hout; inversion Hout; subst; io_facts;
    log_eq; reflexivity.
Qed.

(** C1, where the code departs from it.  When [off + len] passes [2^64]
    and wraps to at most [SB_BUFFER_SIZE], a call that returns a pointer
    returns [&sbbuf[off]], which lies beyond the block: the [len] bytes
    behind it are not bytes of the source. *)
Theorem wrapped_request_view_out_of_bounds env id f off len p id' f' :
  0 <= SB < 2 ^ 64 ->
  within_capacity SB SEEK id ->
  is_u64 off -> is_u32 len ->
  2 ^ 64 <= off + len ->
  off + len - 2 ^ 64 <= SB ->
  volume_id_get_buffer SB SEEK env id f off len = (Ok p, id', f') ->
  p = SbPtr off /\ deref id' p len = None.
Proof.
  intros HSB Hcap [Hoff0 Hoff] [Hlen0 Hlen] Hwrap Hfit Hcall.
  assert (Hw : u64 (off + len) = off + len - 2 ^ 64)
    by (apply u64_wrapped; lia).
  pose proof (front_dispatch env id f off len) as Hout.
  rewrite Hcall in Hout. destruct Hout as ([Hp|[Hp|Hp]] & _); [lia| | |];
    inversion Hp; subst. split; [reflexivity|].
  apply get_buffer_within_capacity in Hcall; [|lia|lia|exact Hcap].
  destruct Hcall as [Hsb _]. unfold deref.
  destruct (sbbuf id') as [buf|]; [|reflexivity].
  specialize (Hsb buf eq_refl).
  rewrite (proj2 (Z.leb_gt _ _)) by lia. reflexivity.
Qed.

(** C2, where the code departs from it.  When [read] fails during a refill
    of the superblock buffer, its [-1] is stored in the [unsigned int]
    [buf_len]: the call returns a pointer instead of [NULL] and
    [sbbuf_len] becomes [2^32 - 1], more than it was. *)
Theorem read_error_reported_as_success env id f off len :
  read_fails env = true ->
  0 <= off -> 0 <= len ->
  off + len <= SB -> SB < 2 ^ 32 ->
  sbbuf_len id < off + len ->
  sbbuf id <> None \/ malloc_fails env = false ->
  exists id' f',
    volume_id_get_buffer SB SEEK env id f off len = (Ok (SbPtr off), id', f')
    /\ sbbuf_len id' = 2 ^ 32 - 1
    /\ sbbuf_len id < sbbuf_len id'.
Proof.
  intros Hfail Hoff Hlen Hfit HSB Hmiss Hblock.
  unfold volume_id_get_buffer. cbv zeta.
  rewrite (u64_small (off + len)) by lia.
  rewrite (proj2 (Z.leb_le _ _) Hfit).
  destruct (front_block env id Hblock) as [buf ->].
  rewrite (proj2 (Z.ltb_lt _ _) Hmiss).
  destruct (lseek env f 0) as [pos f1].
  rewrite read_failing by exact Hfail.
  rewrite u32_minus_one.
  rewrite (proj2 (Z.ltb_ge (2 ^ 32 - 1) (off + len))) by lia.
  eexists _, _. split; [reflexivity|]. simpl. lia.
Qed.

(** The same on the seek buffer. *)
Lemma read_error_reported_as_success_window env id f off len :
  read_fails env = true -> lseek_fails env = false ->
  0 <= off < 2 ^ 63 -> is_u32 len ->
  SB < off + len -> len <= SEEK ->
  seekbuf_len id = 0 ->
  seekbuf id <> None \/ malloc_fails env = false ->
  0 < len ->
  0 <= seekbuf_off id < 2 ^ 64 ->
  exists id' f',
    volume_id_get_buffer SB SEEK env id f off len = (Ok (SeekPtr 0), id', f')
    /\ seekbuf_len id' = 2 ^ 32 - 1.
Proof.
  intros Hfail Hseek Hoff [Hlen0 Hlen] Hwin Hfit Hempty Hblock Hpos Hso.
  unfold volume_id_get_buffer. cbv zeta.
  rewrite (u64_small (off + len)) by lia.
  rewrite (proj2 (Z.leb_gt _ _) Hwin), (proj2 (Z.ltb_ge _ _) Hfit).
  destruct (window_block env id Hblock) as [buf ->].
  rewrite Hempty, Z.add_0_r, (u64_small (seekbuf_off id)) by lia.
  assert (Hmiss : (off <? seekbuf_off id)
                  || (seekbuf_off id <? off + len) = true).
  { apply orb_true_iff.
    destruct (Z.lt_ge_cases off (seekbuf_off id)).
    - left. apply Z.ltb_lt. lia.
    - right. apply Z.ltb_lt. lia. }
  rewrite Hmiss, lseek_reliable by (auto; lia).
  rewrite (proj2 (Z.eqb_neq off (-1))) by lia.
  rewrite read_failing by exact Hfail.
  rewrite u32_minus_one.
  rewrite (proj2 (Z.ltb_ge (2 ^ 32 - 1) len)) by lia.
  simpl. rewrite Z.sub_diag.
  eexists _, _. split; reflexivity.
Qed.

(** X5. When a refill of the seek buffer cannot seek, because [lseek]
    fails or because [off] is [2^63] or more, the call returns [NULL]
    without reading, and the offset and valid length of the seek buffer
    stay what they were. *)
Lemma window_seek_error_propagated env id f off len r id' f' :
  SB < u64 (off + len) -> len <= SEEK ->
  (off <? seekbuf_off id)
  || (u64 (seekbuf_off id + seekbuf_len id) <? u64 (off + len)) = true ->
  seekbuf id <> None \/ malloc_fails env = false ->
  lseek_fails env = true \/ 2 ^ 63 <= off ->
  volume_id_get_buffer SB SEEK env id f off len = (r, id', f') ->
  r = Null IoFailure
  /\ seekbuf_off id' = seekbuf_off id /\ seekbuf_len id' = seekbuf_len id
  /\ calls f' = calls f ++ [Lseek off].
Proof.
  intros Hwin Hfit Hmiss Hblock Hfail.
  unfold volume_id_get_buffer. cbv zeta.
  rewrite (proj2 (Z.leb_gt _ _) Hwin), (proj2 (Z.ltb_ge _ _) Hfit).
  destruct (window_block env id Hblock) as [buf ->].
  rewrite Hmiss.
  assert (Hls : lseek env f off
                = (-1, File (contents f) (position f)
                         (calls f ++ [Lseek off]))).
  { unfold lseek. destruct Hfail as [->|Hhuge]; [reflexivity|].
    rewrite (proj2 (Z.leb_le _ _) Hhuge), orb_true_r. reflexivity. }
  rewrite Hls. simpl. intros Hout; inversion Hout; subst. simpl. auto.
Qed.

(** C4, where the code departs from it.  A request with
    [off + len > SB_BUFFER_SIZE] and [len > SEEK_BUFFER_SIZE] whose sum
    passes [2^64] and wraps to at most [SB_BUFFER_SIZE] is not refused as
    too large: it is served by the superblock buffer, and when that is not
    valid up to the wrapped sum the source is sought and read. *)
Theorem wrapped_large_request_not_rejected env id f off len r id' f' :
  is_u64 off -> is_u32 len ->
  SEEK < len ->
  SB < off + len ->
  2 ^ 64 <= off + len ->
  off + len - 2 ^ 64 <= SB ->
  volume_id_get_buffer SB SEEK env id f off len = (r, id', f') ->
  r <> Null RequestTooLarge
  /\ (sbbuf_len id < off + len - 2 ^ 64 ->
      sbbuf id <> None \/ malloc_fails env = false ->
      calls f' = calls f ++ [Lseek 0; Read (off + len - 2 ^ 64)]).
Proof.
  intros [Hoff0 Hoff] [Hlen0 Hlen] Hbig Hnotfront Hwrap Hfit Hcall.
  assert (Hw : u64 (off + len) = off + len - 2 ^ 64)
    by (apply u64_wrapped; lia).
  split.
  - pose proof (front_dispatch env id f off len) as Hout.
    rewrite Hcall in Hout. destruct Hout as ([Hp|[Hp|Hp]] & _); [lia| | |];
      rewrite Hp; discriminate.
  - intros Hmiss Hblock. rewrite <- Hw.
    eapply front_refill_log; eauto; lia.
Qed.

(** C5. When the source is shorter than a range requested of the
    superblock buffer, the call fails for lack of data, and the bytes that
    were read, all bytes of the source, are recorded as valid: any later
    call for a range inside them returns a pointer to exactly those bytes
    of the source, with the cache and the file (and its log of seeks and
    reads) left as they were. *)
Theorem short_source_then_cached env id f off len :
  lseek_fails env = false -> read_fails env = false ->
  sbbuf id <> None \/ malloc_fails env = false ->
  0 <= off -> 0 <= len ->
  off + len <= SB -> SB < 2 ^ 32 ->
  Z.of_nat (length (contents f)) < off + len ->
  sbbuf_len id <= Z.of_nat (length (contents f)) ->
  exists id' f',
    volume_id_get_buffer SB SEEK env id f off len
    = (Null InsufficientData, id', f')
    /\ sbbuf_len id' = Z.of_nat (length (contents f))
    /\ calls f' = calls f ++ [Lseek 0; Read (off + len)]
    /\ forall env' off' len',
         0 <= off' -> 0 <= len' ->
         off' + len' <= Z.of_nat (length (contents f)) ->
         volume_id_get_buffer SB SEEK env' id' f' off' len'
         = (Ok (SbPtr off'), id', f')
         /\ deref id' (SbPtr off') len' = Some (slice (contents f) off' len')
         /\ Z.of_nat (length (slice (contents f) off' len')) = len'.
Proof.
  intros Hseek Hread Hblock Hoff Hlen Hfit HSB Hshort Hvalid.
  unfold volume_id_get_buffer at 1. cbv zeta.
  rewrite (u64_small (off + len)) by lia.
  rewrite (proj2 (Z.leb_le _ _) Hfit).
  destruct (front_block env id Hblock) as [buf ->].
  rewrite (proj2 (Z.ltb_lt (sbbuf_len id) (off + len))) by lia.
  rewrite lseek_reliable by (auto; lia).
  rewrite read_reliable by auto. simpl.
  pose proof (mirrors_refill (contents f) buf 0 (off + len)) as Hmir.
  rewrite slice_all in Hmir |- * by lia.
  rewrite (u32_small (Z.of_nat (length (contents f)))) by lia.
  rewrite (proj2 (Z.ltb_lt _ _) Hshort).
  eexists _, _. split; [reflexivity|]. simpl.
  split; [reflexivity|]. split; [rewrite <- app_assoc; reflexivity|].
  intros env' off' len' Hoff' Hlen' Hin.
  split; [apply front_hit; simpl; (congruence || lia)|].
  destruct (mirrors_span _ _ _ _ off' len' Hmir) as (Hspan & Heq & Hfull);
    try lia.
  rewrite Z.sub_0_r in Hspan, Heq.
  unfold deref; simpl. rewrite (proj2 (Z.leb_le _ _) Hspan), Heq. auto.
Qed.

(** C6. When a refill of the seek buffer transfers fewer than [len] bytes,
    the call fails for lack of data, and the seek buffer is updated all the
    same: [seekbuf_off] is the offset requested, [seekbuf_len] the number
    of bytes transferred, and the block starts with those bytes. *)
Theorem window_short_refill_updates_state env id f off len :
  lseek_fails env = false -> read_fails env = false ->
  seekbuf id <> None \/ malloc_fails env = false ->
  0 <= off < 2 ^ 63 -> is_u32 len ->
  SB < off + len -> len <= SEEK ->
  (off <? seekbuf_off id)
  || (u64 (seekbuf_off id + seekbuf_len id) <? off + len) = true ->
  Z.of_nat (length (slice (contents f) off len)) < len ->
  exists buf f',
    volume_id_get_buffer SB SEEK env id f off len
    = (Null InsufficientData,
       VolumeId (sbbuf id) (sbbuf_len id) (Some buf) off
                (Z.of_nat (length (slice (contents f) off len))),
       f')
    /\ take (length (slice (contents f) off len)) buf
       = slice (contents f) off len
    /\ calls f' = calls f ++ [Lseek off; Read len].
Proof.
  intros Hseek Hread Hblock Hoff [Hlen0 Hlen] Hwin Hfit Hmiss Hshort.
  unfold volume_id_get_buffer. cbv zeta.
  rewrite (u64_small (off + len)) by lia.
  rewrite (proj2 (Z.leb_gt _ _) Hwin), (proj2 (Z.ltb_ge _ _) Hfit).
  destruct (window_block env id Hblock) as [buf ->].
  rewrite Hmiss, lseek_reliable by (auto; lia).
  rewrite (proj2 (Z.eqb_neq off (-1))) by lia.
  rewrite read_reliable by auto. simpl.
  rewrite (u32_small (Z.of_nat (length (slice (contents f) off len)))) by lia.
  rewrite (proj2 (Z.ltb_lt _ _) Hshort).
  eexists _, _. split; [reflexivity|]. simpl.
  split; [apply store_take|rewrite <- app_assoc; reflexivity].
Qed.

End Properties.

(** ** The theorems at concrete requests *)

(** A failing [lseek] before a refill of the superblock buffer goes
    unnoticed: [read] continues from wherever the file offset was, here 5,
    and the call returns a pointer to bytes 6..9 as if they were bytes
    1..4. *)
Example front_seek_error_ignored :
  volume_id_get_buffer SB_example SEEK_example seek_error closed_buffers
    (File ten_bytes 5 []) 0 4
  = (Ok (SbPtr 0),
     VolumeId (Some (bytes_of [6; 7; 8; 9])) 4 None 0 0,
     File ten_bytes 9 [Lseek 0; Read 4]).
Proof. reflexivity. Qed.

(** Front and seek buffer requests interleaved: five requests, three
    refills. *)
Example interleaved_requests :
  let out :=
    run SB_example SEEK_example
      [Request no_faults 0 16; Request no_faults 70000 10;
       Request no_faults 4 4; Request no_faults 70002 4;
       Request no_faults 70005 10]
      closed_buffers (File long_source 0 []) in
  fst (fst out)
  = [(Ok (SbPtr 0), Some (repeat x41 16));
     (Ok (SeekPtr 0), Some (repeat x41 10));
     (Ok (SbPtr 4), Some (repeat x41 4));
     (Ok (SeekPtr 2), Some (repeat x41 4));
     (Null InsufficientData, None)]
  /\ calls (snd out)
     = [Lseek 0; Read 16; Lseek 70000; Read 10; Lseek 70005; Read 10].
Proof. vm_compute. split; reflexivity. Qed.

Lemma wrapped_request_view_out_of_bounds_witness :
  exists id' f',
    volume_id_get_buffer SB_example SEEK_example no_faults closed_buffers
      (File ten_bytes 0 []) (2 ^ 64 - 1) 2
    = (Ok (SbPtr (2 ^ 64 - 1)), id', f')
    /\ deref id' (SbPtr (2 ^ 64 - 1)) 2 = None.
Proof.
  eexists _, _. split; [vm_compute; reflexivity|].
  refine (proj2 (wrapped_request_view_out_of_bounds SB_example SEEK_example
                   no_faults closed_buffers (File ten_bytes 0 [])
                   (2 ^ 64 - 1) 2 (SbPtr (2 ^ 64 - 1)) _ _ _ _ _ _ _ _ _)).
  - unfold SB_example; lia.
  - split; intros buf Hbuf; discriminate Hbuf.
  - unfold is_u64; lia.
  - unfold is_u32; lia.
  - lia.
  - unfold SB_example; lia.
  - reflexivity.
Defined.

Lemma read_error_reported_as_success_witness :
  exists id' f',
    volume_id_get_buffer SB_example SEEK_example read_error closed_buffers
      (File ten_bytes 0 []) 0 4
    = (Ok (SbPtr 0), id', f')
    /\ sbbuf_len id' = 2 ^ 32 - 1
    /\ sbbuf_len closed_buffers < sbbuf_len id'.
Proof.
  apply (read_error_reported_as_success SB_example SEEK_example read_error
           closed_buffers (File ten_bytes 0 []) 0 4).
  - reflexivity.
  - lia.
  - lia.
  - unfold SB_example; lia.
  - unfold SB_example; lia.
  - simpl; lia.
  - right; reflexivity.
Defined.

Lemma boundary_dispatch_witness :
  (volume_id_get_buffer SB_small SEEK_small no_faults closed_buffers
     (File forty_bytes 0 []) 22 10
   = (Ok (SbPtr 22),
      VolumeId (Some (take 32 forty_bytes)) 32 None 0 0,
      File forty_bytes 32 [Lseek 0; Read 32])
   /\ front_served no_faults 22 SB_small closed_buffers
        (File forty_bytes 0 [])
        (volume_id_get_buffer SB_small SEEK_small no_faults closed_buffers
           (File forty_bytes 0 []) 22 10))
  /\ (volume_id_get_buffer SB_small SEEK_small no_faults closed_buffers
        (File forty_bytes 0 []) 23 10
      = (Ok (SeekPtr 0),
         VolumeId None 0 (Some (slice forty_bytes 23 10)) 23 10,
         File forty_bytes 33 [Lseek 23; Read 10])
      /\ window_served SEEK_small no_faults 23 10 (SB_small + 1)
           closed_buffers (File forty_bytes 0 [])
           (volume_id_get_buffer SB_small SEEK_small no_faults closed_buffers
              (File forty_bytes 0 []) 23 10)).
Proof.
  split; (split; [vm_compute; reflexivity|]).
  - apply (proj1 (boundary_dispatch SB_small SEEK_small no_faults
                    closed_buffers (File forty_bytes 0 []) 22 10
                    ltac:(lia) ltac:(lia) ltac:(unfold SB_small; lia))).
    reflexivity.
  - apply (proj2 (boundary_dispatch SB_small SEEK_small no_faults
                    closed_buffers (File forty_bytes 0 []) 23 10
                    ltac:(lia) ltac:(lia) ltac:(unfold SB_small; lia))).
    reflexivity.
Defined.

Lemma wrapped_large_request_not_rejected_witness :
  exists r id' f',
    volume_id_get_buffer SB_example SEEK_example no_faults closed_buffers
      (File ten_bytes 0 []) (2 ^ 64 - 1) 65537
    = (r, id', f')
    /\ r <> Null RequestTooLarge
    /\ calls f' = [Lseek 0; Read 65536].
Proof.
  eexists _, _, _. split; [vm_compute; reflexivity|].
  destruct (wrapped_large_request_not_rejected SB_example SEEK_example
              no_faults closed_buffers (File ten_bytes 0 [])
              (2 ^ 64 - 1) 65537 _ _ _
              ltac:(unfold is_u64; lia) ltac:(unfold is_u32; lia)
              ltac:(unfold SEEK_example; lia) ltac:(unfold SB_example; lia)
              ltac:(lia) ltac:(unfold SB_example; lia) eq_refl)
    as [Hnot Hlog].
  split; [exact Hnot|].
  apply Hlog; [simpl; lia|right; reflexivity].
Defined.

Lemma short_source_then_cached_witness :
  exists id' f',
    volume_id_get_buffer SB_example SEEK_example no_faults closed_buffers
      (File ten_bytes 0 []) 0 20
    = (Null InsufficientData, id', f')
    /\ sbbuf_len id' = 10
    /\ calls f' = [Lseek 0; Read 20]
    /\ volume_id_get_buffer SB_example SEEK_example no_faults id' f' 0 10
       = (Ok (SbPtr 0), id', f')
    /\ deref id' (SbPtr 0) 10 = Some ten_bytes.
Proof.
  destruct (short_source_then_cached SB_example SEEK_example no_faults
              closed_buffers (File ten_bytes 0 []) 0 20)
    as (id' & f' & Hcall & Hvalid & Hlog & Hlater).
  - reflexivity.
  - reflexivity.
  - right; reflexivity.
  - lia.
  - lia.
  - unfold SB_example; lia.
  - unfold SB_example; lia.
  - simpl; lia.
  - simpl; lia.
  - exists id', f'. split; [exact Hcall|]. split; [exact Hvalid|].
    split; [exact Hlog|].
    destruct (Hlater no_faults 0 10) as (Hhit & Hview & _);
      [lia|lia|simpl; lia|].
    split; [exact Hhit|exact Hview].
Defined.

Lemma window_short_refill_updates_state_witness :
  exists buf f',
    volume_id_get_buffer SB_example SEEK_example no_faults closed_buffers
      (File long_source 0 []) 70000 20
    = (Null InsufficientData, VolumeId None 0 (Some buf) 70000 10, f')
    /\ take 10 buf = repeat x41 10
    /\ calls f' = [Lseek 70000; Read 20].
Proof.
  apply (window_short_refill_updates_state SB_example SEEK_example no_faults
           closed_buffers (File long_source 0 []) 70000 20).
  - reflexivity.
  - reflexivity.
  - right; reflexivity.
  - lia.
  - unfold is_u32; lia.
  - unfold SB_example; lia.
  - unfold SEEK_example; lia.
  - reflexivity.
  - vm_compute; reflexivity.
Defined.

Lemma front_hits_issue_no_io_witness :
  let id' := VolumeId (Some ten_bytes) 10 None 0 0 in
  let f' := File ten_bytes 10 [Lseek 0; Read 10] in
  run SB_example SEEK_example
    [Request no_faults 0 10; Request read_error 2 5; Request seek_error 9 1]
    id' f'
  = ([(Ok (SbPtr 0), deref id' (SbPtr 0) 10);
      (Ok (SbPtr 2), deref id' (SbPtr 2) 5);
      (Ok (SbPtr 9), deref id' (SbPtr 9) 1)], id', f').
Proof.
  apply (front_hits_issue_no_io SB_example SEEK_example no_faults
           closed_buffers (File ten_bytes 0 []) 0 10 (SbPtr 0)).
  - lia.
  - lia.
  - unfold SB_example; lia.
  - unfold SB_example; lia.
  - reflexivity.
  - repeat constructor; simpl; lia.
Defined.

Lemma free_buffer_releases_all_witness :
  let id' :=
    volume_id_free_buffer (VolumeId (Some ten_bytes) 10 None 70000 0) in
  sbbuf id' = None /\ sbbuf_len id' = 0
  /\ seekbuf id' = None /\ seekbuf_len id' = 0
  /\ seekbuf_off id' = 70000
  /\ volume_id_free_buffer id' = id'.
Proof.
  apply (free_buffer_releases_all (VolumeId (Some ten_bytes) 10 None 70000 0)).
  split; simpl; [discriminate|reflexivity].
Defined.

Lemma wrapped_sum_selects_front_witness :
  let id := VolumeId (Some ten_bytes) 10 None 0 0 in
  let f := File ten_bytes 10 [Lseek 0; Read 10] in
  (volume_id_get_buffer SB_example SEEK_example no_faults closed_buffers
     (File ten_bytes 0 []) (2 ^ 64 - 1) 2
   = (Ok (SbPtr (2 ^ 64 - 1)),
      VolumeId (Some (take 1 ten_bytes)) 1 None 0 0,
      File ten_bytes 1 [Lseek 0; Read 1])
   /\ front_served no_faults (2 ^ 64 - 1) 1 closed_buffers
        (File ten_bytes 0 [])
        (volume_id_get_buffer SB_example SEEK_example no_faults
           closed_buffers (File ten_bytes 0 []) (2 ^ 64 - 1) 2))
  /\ front_served no_faults (2 ^ 64 - 1) 65536 closed_buffers
       (File ten_bytes 0 [])
       (volume_id_get_buffer SB_example SEEK_example no_faults
          closed_buffers (File ten_bytes 0 []) (2 ^ 64 - 1) 65537)
  /\ volume_id_get_buffer SB_example SEEK_example no_faults id f (2 ^ 64 - 1) 2
     = (Ok (SbPtr (2 ^ 64 - 1)), id, f).
Proof.
  intros id f. split; [split; [vm_compute; reflexivity|]|split].
  - apply (proj1 (wrapped_sum_selects_front SB_example SEEK_example
                    no_faults closed_buffers (File ten_bytes 0 [])
                    (2 ^ 64 - 1) 2
                    ltac:(unfold is_u64; lia) ltac:(unfold is_u32; lia)
                    ltac:(lia) ltac:(unfold SB_example; lia))).
  - apply (proj1 (wrapped_sum_selects_front SB_example SEEK_example
                    no_faults closed_buffers (File ten_bytes 0 [])
                    (2 ^ 64 - 1) 65537
                    ltac:(unfold is_u64; lia) ltac:(unfold is_u32; lia)
                    ltac:(lia) ltac:(unfold SB_example; lia))).
  - apply (proj2 (wrapped_sum_selects_front SB_example SEEK_example
                    no_faults id f (2 ^ 64 - 1) 2
                    ltac:(unfold is_u64; lia) ltac:(unfold is_u32; lia)
                    ltac:(lia) ltac:(unfold SB_example; lia)));
      [discriminate|simpl; lia].
Defined.

Lemma regions_are_framed_witness :
  (forall r id' f',
     volume_id_get_buffer SB_example SEEK_example no_faults closed_buffers
       (File long_source 0 []) 0 16 = (r, id', f') ->
     window_untouched closed_buffers id')
  /\ (forall r id' f',
       volume_id_get_buffer SB_example SEEK_example no_faults closed_buffers
         (File long_source 0 []) 70000 20 = (r, id', f') ->
       front_untouched closed_buffers id').
Proof.
  split; intros r id' f' Hcall.
  - apply (proj1 (regions_are_framed SB_example SEEK_example no_faults
                    closed_buffers (File long_source 0 []) 0 16 r id' f'
                    Hcall)).
    vm_compute; discriminate.
  - apply (proj2 (regions_are_framed SB_example SEEK_example no_faults
                    closed_buffers (File long_source 0 []) 70000 20 r id' f'
                    Hcall)).
    vm_compute; reflexivity.
Defined.

(** * Further properties: the identification setters *)

(** ** Bytes *)

Lemma byte_val_range b : 0 <= byte_val b < 256.
Proof.
  unfold byte_val. pose proof (Byte.to_N_bounded b) as Hb. lia.
Qed.

Lemma u8_byte_val b : u8 (byte_val b) = b.
Proof.
  unfold u8. rewrite Z.mod_small by apply byte_val_range.
  unfold byte_val. rewrite N2Z.id, Byte.of_to_N. reflexivity.
Qed.

Lemma byte_val_u8 z : byte_val (u8 z) = z mod 256.
Proof.
  unfold u8, byte_val.
  assert (Hr : 0 <= z mod 256 < 256) by (apply Z.mod_pos_bound; lia).
  destruct (Byte.of_N (Z.to_N (z mod 256))) as [b|] eqn:Hb.
  - apply Byte.to_of_N in Hb. simpl. rewrite Hb. lia.
  - apply Byte.of_N_None_iff in Hb. lia.
Qed.

Lemma byte_val_u8_small z : 0 <= z < 256 -> byte_val (u8 z) = z.
Proof. intros Hz. rewrite byte_val_u8. apply Z.mod_small. exact Hz. Qed.

Lemma byte_eqb_spec (a b : byte) : reflect (a = b) (Byte.eqb a b).
Proof.
  destruct (Byte.eqb a b) eqn:H; constructor.
  - apply Byte.byte_dec_bl. exact H.
  - apply Byte.eqb_false. exact H.
Qed.

(** ** Arrays *)

Lemma memcpy_Some dst src count :
  0 <= count ->
  count <= Z.of_nat (length src) -> count <= Z.of_nat (length dst) ->
  memcpy dst src count
  = Some (take (Z.to_nat count) src ++ drop (Z.to_nat count) dst).
Proof.
  intros H0 Hs Hd. unfold memcpy.
  rewrite (proj2 (Z.leb_le _ _) Hs), (proj2 (Z.leb_le _ _) Hd). reflexivity.
Qed.

Lemma memcpy_length dst src count out :
  0 <= count -> memcpy dst src count = Some out -> length out = length dst.
Proof.
  intros H0. unfold memcpy.
  destruct (Z.leb_spec count (Z.of_nat (length src)));
    destruct (Z.leb_spec count (Z.of_nat (length dst))); simpl;
    try discriminate.
  intros Hout; inversion Hout; subst.
  rewrite length_app, length_take, length_drop. lia.
Qed.

Lemma poke_Some a i c :
  0 <= i < Z.of_nat (length a) -> poke a i c = Some (<[Z.to_nat i := c]> a).
Proof.
  intros [H0 H1]. unfold poke.
  rewrite (proj2 (Z.leb_le _ _) H0), (proj2 (Z.ltb_lt _ _) H1). reflexivity.
Qed.

(** ** C strings *)

Lemma cstring_app_nul s t :
  cstring s = s -> cstring (s ++ x00 :: t) = s.
Proof.
  induction s as [|c s IH]; simpl; [reflexivity|].
  destruct (byte_eqb_spec c x00); [discriminate|].
  intros H; inversion H as [H1]. rewrite !H1. f_equal. apply IH. exact H1.
Qed.

Lemma cstring_idem s : cstring (cstring s) = cstring s.
Proof.
  induction s as [|c s IH]; simpl; [reflexivity|].
  destruct (byte_eqb_spec c x00) as [|Hne]; [reflexivity|].
  simpl. destruct (byte_eqb_spec c x00); [contradiction|]. f_equal. exact IH.
Qed.

Lemma cstring_take s k : cstring s = s -> cstring (take k s) = take k s.
Proof.
  revert k. induction s as [|c s IH]; intros [|k] H; simpl in *; auto.
  destruct (byte_eqb_spec c x00); [discriminate|].
  inversion H as [H1]. rewrite !H1. f_equal. apply IH. exact H1.
Qed.

Lemma strnlen_cstring s n :
  (n <= length s)%nat -> take (strnlen s n) s = cstring (take n s).
Proof.
  revert s. induction n as [|n IH]; intros [|c s] Hn; simpl in *; auto.
  destruct (byte_eqb_spec c x00); [reflexivity|].
  simpl. f_equal. apply IH. lia.
Qed.

Lemma strnlen_le s n : (strnlen s n <= n)%nat /\ (strnlen s n <= length s)%nat.
Proof.
  revert s. induction n as [|n IH]; intros [|c s]; simpl; try lia.
  destruct (Byte.eqb c x00); simpl; [lia|]. specialize (IH s). lia.
Qed.

(** ** Trailing whitespace *)

Lemma rstrip_snoc s c :
  rstrip (s ++ [c]) = if isspace c then rstrip s else s ++ [c].
Proof.
  induction s as [|d s IH]; simpl.
  - destruct (isspace c); reflexivity.
  - rewrite IH. destruct (isspace c) eqn:Hc; [reflexivity|].
    destruct (s ++ [c]) eqn:Hs; [destruct s; discriminate|reflexivity].
Qed.

Lemma rstrip_prefix s : rstrip s `prefix_of` s.
Proof.
  induction s as [|c s IH]; simpl; [reflexivity|].
  destruct (rstrip s) as [|d t] eqn:Hr.
  - destruct (isspace c); [apply prefix_nil|].
    apply prefix_cons, prefix_nil.
  - apply prefix_cons. exact IH.
Qed.

Lemma rstrip_last s c : last (rstrip s) = Some c -> isspace c = false.
Proof.
  induction s as [|d s IH]; simpl; [discriminate|].
  destruct (rstrip s) as [|e t] eqn:Hr.
  - destruct (isspace d) eqn:Hd; simpl; [discriminate|].
    intros H; inversion H; subst. exact Hd.
  - intros H. apply IH. exact H.
Qed.

Lemma rstrip_all_space s :
  Forall (fun c => isspace c = true) s -> rstrip s = [].
Proof.
  induction 1 as [|c s Hc _ IH]; simpl; [reflexivity|].
  rewrite IH, Hc. reflexivity.
Qed.

Lemma take_S_snoc (s : list byte) i :
  (i < length s)%nat -> take (S i) s = take i s ++ [nth i s x00].
Proof.
  revert i. induction s as [|c s IH]; intros [|i] Hi; simpl in *; try lia; auto.
  f_equal. apply IH. lia.
Qed.

(** The index the terminator is written at is the length of the stripped
    string. *)
Lemma strip_scan_rstrip s i :
  (i <= length s)%nat -> Z.of_nat i < 2 ^ 32 ->
  0 <= u32 (strip_scan s i + 1) <= Z.of_nat i
  /\ take (Z.to_nat (u32 (strip_scan s i + 1))) s = rstrip (take i s).
Proof.
  induction i as [|i IH]; intros Hi H32.
  - simpl. split; [vm_compute; split; discriminate|reflexivity].
  - rewrite take_S_snoc by lia. rewrite rstrip_snoc. simpl strip_scan.
    destruct (isspace (nth i s x00)); simpl.
    + destruct IH as [Hk Ht]; [lia|lia|]. split; [lia|exact Ht].
    + rewrite u32_small by lia. split; [lia|].
      replace (Z.to_nat (Z.of_nat i + 1)) with (S i) by lia.
      apply take_S_snoc. lia.
Qed.

Lemma cstring_prefix_closed s t : cstring (s ++ t) = s ++ t -> cstring s = s.
Proof.
  induction s as [|c s IH]; simpl; [reflexivity|].
  destruct (byte_eqb_spec c x00); [discriminate|].
  intros H; inversion H as [H1]. f_equal. apply IH. exact H1.
Qed.

Lemma cstring_prefix_of s : cstring s `prefix_of` s.
Proof.
  induction s as [|c s IH]; simpl; [reflexivity|].
  destruct (Byte.eqb c x00); [apply prefix_nil|apply prefix_cons, IH].
Qed.

Lemma rstrip_cstring s : cstring (rstrip (cstring s)) = rstrip (cstring s).
Proof.
  destruct (rstrip_prefix (cstring s)) as [t Ht].
  apply (cstring_prefix_closed _ t). rewrite <- Ht. apply cstring_idem.
Qed.

(** ** [volume_id_set_label_string] *)

Lemma set_label_string_spec id buf count id' :
  is_u32 count ->
  volume_id_set_label_string id buf count = Some id' ->
  id' = with_label id (label id')
  /\ length (label id') = length (label id)
  /\ cstring (label id') = rstrip (cstring (take (Z.to_nat count) buf)).
Proof.
  intros [H0 H32]. unfold volume_id_set_label_string, memcpy, poke.
  destruct (Z.leb_spec count (Z.of_nat (length buf))) as [Hbuf|];
    [|discriminate].
  destruct (Z.leb_spec count (Z.of_nat (length (label id)))) as [Hlab|];
    [|discriminate].
  simpl.
  set (l1 := take (Z.to_nat count) buf ++ drop (Z.to_nat count) (label id)).
  assert (Hl1 : length l1 = length (label id)).
  { unfold l1. rewrite length_app, length_take, length_drop. lia. }
  assert (Htk : take (Z.to_nat count) l1 = take (Z.to_nat count) buf).
  { unfold l1. rewrite take_app_le by (rewrite length_take; lia).
    rewrite take_take. f_equal. lia. }
  set (n := strnlen l1 (Z.to_nat count)).
  destruct (strnlen_le l1 (Z.to_nat count)) as [Hn1 Hn2]. fold n in Hn1, Hn2.
  destruct (strip_scan_rstrip l1 n) as [Hk Hstrip]; [lia|lia|].
  set (k := u32 (strip_scan l1 n + 1)) in *.
  unfold n in Hstrip.
  rewrite strnlen_cstring, Htk in Hstrip by lia.
  destruct (Z.leb_spec 0 k); [|lia]. simpl.
  destruct (Z.ltb_spec k (Z.of_nat (length l1))) as [Hin|]; [|discriminate].
  simpl. intros Hout; inversion Hout; subst id'; clear Hout. simpl.
  split; [reflexivity|]. split; [rewrite length_insert; exact Hl1|].
  rewrite insert_take_drop by lia. rewrite Hstrip.
  apply cstring_app_nul, rstrip_cstring.
Qed.

(** X9. [volume_id_set_label_string] with [count] bytes readable from
    [buf] and [count] less than the size of [label] is defined, changes
    [label] only, and the string [label] then holds is the first [count]
    bytes of [buf], cut at the first NUL, without their trailing
    whitespace. *)
Theorem set_label_string_strips id buf count :
  is_u32 count ->
  count <= Z.of_nat (length buf) ->
  count < Z.of_nat (length (label id)) ->
  exists l,
    volume_id_set_label_string id buf count = Some (with_label id l)
    /\ length l = length (label id)
    /\ cstring l = rstrip (cstring (take (Z.to_nat count) buf)).
Proof.
  intros Hc Hbuf Hlab.
  destruct (volume_id_set_label_string id buf count) as [id'|] eqn:Hcall.
  - destruct (set_label_string_spec _ _ _ _ Hc Hcall) as (Hid & Hlen & Hstr).
    exists (label id'). rewrite <- Hid. auto.
  - exfalso. revert Hcall. destruct Hc as [H0 H32].
    unfold volume_id_set_label_string.
    rewrite memcpy_Some by lia. simpl.
    set (l1 := take (Z.to_nat count) buf ++ drop (Z.to_nat count) (label id)).
    assert (Hl1 : length l1 = length (label id)).
    { unfold l1. rewrite length_app, length_take, length_drop. lia. }
    destruct (strnlen_le l1 (Z.to_nat count)) as [Hn1 Hn2].
    destruct (strip_scan_rstrip l1 (strnlen l1 (Z.to_nat count))) as [Hk _];
      [lia|lia|].
    rewrite poke_Some by lia. discriminate.
Qed.

(** X10. The string [volume_id_set_label_string] leaves in [label] is a
    prefix of the bytes given, at most [count] long, and does not end in
    whitespace. *)
Theorem set_label_string_trimmed id buf count id' :
  is_u32 count ->
  volume_id_set_label_string id buf count = Some id' ->
  cstring (label id') `prefix_of` take (Z.to_nat count) buf
  /\ Z.of_nat (length (cstring (label id'))) <= count
  /\ forall c, last (cstring (label id')) = Some c -> isspace c = false.
Proof.
  intros Hc Hcall.
  destruct (set_label_string_spec _ _ _ _ Hc Hcall) as (_ & _ & Hstr).
  rewrite Hstr.
  assert (Hpre : rstrip (cstring (take (Z.to_nat count) buf))
                 `prefix_of` take (Z.to_nat count) buf).
  { etrans; [apply rstrip_prefix|apply cstring_prefix_of]. }
  split; [exact Hpre|]. split.
  - apply prefix_length in Hpre. rewrite length_take in Hpre.
    destruct Hc. lia.
  - intros c. apply rstrip_last.
Qed.

(** X11. When the bytes given are empty, or are whitespace up to the
    first NUL, the scan runs below index 0: [i] wraps to [2^32 - 1], the
    terminator is written at [label[0]] and [label] holds the empty
    string. *)
Theorem set_label_string_blank id buf count id' :
  is_u32 count ->
  Forall (fun c => isspace c = true) (cstring (take (Z.to_nat count) buf)) ->
  volume_id_set_label_string id buf count = Some id' ->
  cstring (label id') = [] /\ label id' !! 0%nat = Some x00.
Proof.
  intros Hc Hblank Hcall.
  destruct (set_label_string_spec _ _ _ _ Hc Hcall) as (_ & _ & Hstr).
  rewrite rstrip_all_space in Hstr by exact Hblank.
  split; [exact Hstr|].
  destruct (label id') as [|c l] eqn:Hl.
  - exfalso. revert Hcall. unfold volume_id_set_label_string, poke.
    destruct (memcpy (label id) buf count) as [l1|]; [|discriminate]. simpl.
    destruct ((0 <=? _) && (_ <? Z.of_nat (length l1))) eqn:Hin;
      [|discriminate].
    simpl. intros Hout; inversion Hout; subst id'. simpl in Hl.
    apply andb_true_iff in Hin. destruct Hin as [Hin0 Hin]. zbool.
    assert (Hlen := f_equal length Hl). rewrite length_insert in Hlen.
    simpl in Hlen. lia.
  - simpl in Hstr |- *. destruct (byte_eqb_spec c x00); [congruence|].
    discriminate.
Qed.

(** ** Bit operations on small numbers *)

Lemma all_from_spec n p : forall z,
  all_from n z p = true ->
  forall x, z <= x < z + Z.of_nat n -> p x = true.
Proof.
  induction n as [|n IH]; intros z Hall x Hx; [lia|].
  simpl in Hall. apply andb_true_iff in Hall. destruct Hall as [Hz Hrest].
  destruct (Z.eq_dec x z) as [->|Hne]; [exact Hz|].
  apply (IH (z + 1) Hrest). lia.
Qed.

Lemma lor_192 x : 0 <= x < 64 -> Z.lor 192 x = 192 + x.
Proof.
  intros Hx. apply Z.eqb_eq.
  apply (all_from_spec 64 (fun x => Z.lor 192 x =? 192 + x) 0);
    [vm_compute; reflexivity|lia].
Qed.

Lemma lor_128 x : 0 <= x < 64 -> Z.lor 128 x = 128 + x.
Proof.
  intros Hx. apply Z.eqb_eq.
  apply (all_from_spec 64 (fun x => Z.lor 128 x =? 128 + x) 0);
    [vm_compute; reflexivity|lia].
Qed.

Lemma lor_224 x : 0 <= x < 16 -> Z.lor 224 x = 224 + x.
Proof.
  intros Hx. apply Z.eqb_eq.
  apply (all_from_spec 16 (fun x => Z.lor 224 x =? 224 + x) 0);
    [vm_compute; reflexivity|lia].
Qed.

Lemma unit16_value endianess b0 b1 :
  unit16 endianess b0 b1
  = match endianess with
    | LE => byte_val b1 * 256 + byte_val b0
    | BE => byte_val b0 * 256 + byte_val b1
    end.
Proof.
  assert (H : forall a b, 0 <= a < 256 -> 0 <= b < 256 ->
                Z.lor (Z.shiftl a 8) b = a * 256 + b).
  { intros a b Ha Hb. apply Z.eqb_eq.
    apply (all_from_spec 256
             (fun b => Z.lor (Z.shiftl a 8) b =? a * 256 + b) 0); [|lia].
    apply (all_from_spec 256
             (fun a => all_from 256 0
                         (fun b => Z.lor (Z.shiftl a 8) b =? a * 256 + b)) 0);
      [vm_compute; reflexivity|lia]. }
  destruct endianess; simpl; apply H; apply byte_val_range.
Qed.

Lemma unit16_range endianess b0 b1 : 0 <= unit16 endianess b0 b1 < 65536.
Proof.
  rewrite unit16_value.
  pose proof (byte_val_range b0). pose proof (byte_val_range b1).
  destruct endianess; lia.
Qed.

(** The bytes the loop stores for one unit are its UTF-8 form. *)
Lemma utf8_two_bytes c :
  128 <= c < 2048 ->
  [u8 (Z.lor 192 (Z.shiftr c 6)); u8 (Z.lor 128 (Z.land c 63))] = utf8_bytes c.
Proof.
  intros Hc. unfold utf8_bytes.
  rewrite (proj2 (Z.ltb_ge c 128)), (proj2 (Z.ltb_lt c 2048)) by lia.
  rewrite Z.shiftr_div_pow2 by lia. change (2 ^ 6) with 64.
  change 63 with (Z.ones 6). rewrite Z.land_ones by lia. change (2 ^ 6) with 64.
  assert (0 <= c / 64 < 64)
    by (split; [apply Z.div_pos|apply Z.div_lt_upper_bound]; lia).
  assert (0 <= c mod 64 < 64) by (apply Z.mod_pos_bound; lia).
  rewrite lor_192, lor_128 by lia. reflexivity.
Qed.

Lemma utf8_three_bytes c :
  2048 <= c < 65536 ->
  [u8 (Z.lor 224 (Z.shiftr c 12));
   u8 (Z.lor 128 (Z.land (Z.shiftr c 6) 63));
   u8 (Z.lor 128 (Z.land c 63))] = utf8_bytes c.
Proof.
  intros Hc. unfold utf8_bytes.
  rewrite (proj2 (Z.ltb_ge c 128)), (proj2 (Z.ltb_ge c 2048)) by lia.
  rewrite !Z.shiftr_div_pow2 by lia.
  change (2 ^ 6) with 64. change (2 ^ 12) with 4096.
  change 63 with (Z.ones 6). rewrite !Z.land_ones by lia.
  change (2 ^ 6) with 64.
  assert (0 <= c / 4096 < 16)
    by (split; [apply Z.div_pos|apply Z.div_lt_upper_bound]; lia).
  assert (0 <= (c / 64) mod 64 < 64) by (apply Z.mod_pos_bound; lia).
  assert (0 <= c mod 64 < 64) by (apply Z.mod_pos_bound; lia).
  rewrite lor_224, !lor_128 by lia. reflexivity.
Qed.

Lemma utf8_bytes_length c : (1 <= length (utf8_bytes c) <= 3)%nat.
Proof.
  unfold utf8_bytes.
  destruct (c <? 128); [simpl; lia|]. destruct (c <? 2048); simpl; lia.
Qed.

(** Decoding undoes the UTF-8 form of every unit that is no surrogate,
    and refuses the form of a surrogate. *)
Lemma utf8_decode_bytes c s :
  0 <= c < 65536 -> surrogate c = false ->
  utf8_decode (utf8_bytes c ++ s) = cons c <$> utf8_decode s.
Proof.
  intros Hc Hsur. unfold utf8_bytes.
  destruct (Z.ltb_spec c 128) as [H1|H1].
  { cbn [app utf8_decode]. rewrite byte_val_u8_small by lia.
    rewrite (proj2 (Z.ltb_lt c 128)) by lia. reflexivity. }
  destruct (Z.ltb_spec c 2048) as [H2|H2].
  { assert (2 <= c / 64 < 32)
      by (split; [apply Z.div_le_lower_bound|apply Z.div_lt_upper_bound];
          lia).
    assert (0 <= c mod 64 < 64) by (apply Z.mod_pos_bound; lia).
    cbn [app utf8_decode]. unfold continuation.
    rewrite !byte_val_u8_small by lia.
    rewrite (proj2 (Z.ltb_ge (192 + c / 64) 128)) by lia.
    rewrite (proj2 (Z.leb_le 194 (192 + c / 64))) by lia.
    rewrite (proj2 (Z.ltb_lt (192 + c / 64) 224)) by lia.
    rewrite (proj2 (Z.leb_le 128 (128 + c mod 64))) by lia.
    rewrite (proj2 (Z.ltb_lt (128 + c mod 64) 192)) by lia.
    cbn [andb]. do 2 f_equal.
    pose proof (Z.div_mod c 64 ltac:(lia)). lia. }
  assert (0 <= c / 4096 < 16)
    by (split; [apply Z.div_pos|apply Z.div_lt_upper_bound]; lia).
  assert (0 <= (c / 64) mod 64 < 64) by (apply Z.mod_pos_bound; lia).
  assert (0 <= c mod 64 < 64) by (apply Z.mod_pos_bound; lia).
  assert (Hval : (224 + c / 4096 - 224) * 4096
                 + (128 + (c / 64) mod 64 - 128) * 64
                 + (128 + c mod 64 - 128) = c).
  { pose proof (Z.div_mod c 64 ltac:(lia)).
    pose proof (Z.div_mod (c / 64) 64 ltac:(lia)).
    assert (c / 64 / 64 = c / 4096) by (rewrite Z.div_div by lia; reflexivity).
    lia. }
  cbn [app utf8_decode]. unfold continuation.
  rewrite !byte_val_u8_small by lia.
  rewrite Hval, Hsur.
  rewrite (proj2 (Z.ltb_ge (224 + c / 4096) 128)) by lia.
  rewrite (proj2 (Z.leb_le 194 (224 + c / 4096))) by lia.
  rewrite (proj2 (Z.ltb_ge (224 + c / 4096) 224)) by lia.
  rewrite (proj2 (Z.leb_le 224 (224 + c / 4096))) by lia.
  rewrite (proj2 (Z.ltb_lt (224 + c / 4096) 240)) by lia.
  rewrite (proj2 (Z.leb_le 128 (128 + (c / 64) mod 64))) by lia.
  rewrite (proj2 (Z.ltb_lt (128 + (c / 64) mod 64) 192)) by lia.
  rewrite (proj2 (Z.leb_le 128 (128 + c mod 64))) by lia.
  rewrite (proj2 (Z.ltb_lt (128 + c mod 64) 192)) by lia.
  rewrite (proj2 (Z.leb_le 2048 c)) by lia.
  reflexivity.
Qed.

Lemma utf8_decode_surrogate c s :
  surrogate c = true -> utf8_decode (utf8_bytes c ++ s) = None.
Proof.
  intros Hsur. pose proof Hsur as Hr. unfold surrogate in Hr.
  apply andb_true_iff in Hr. destruct Hr as [Hlo Hhi]. zbool.
  unfold utf8_bytes.
  rewrite (proj2 (Z.ltb_ge c 128)), (proj2 (Z.ltb_ge c 2048)) by lia.
  assert (0 <= c / 4096 < 16)
    by (split; [apply Z.div_pos|apply Z.div_lt_upper_bound]; lia).
  assert (0 <= (c / 64) mod 64 < 64) by (apply Z.mod_pos_bound; lia).
  assert (0 <= c mod 64 < 64) by (apply Z.mod_pos_bound; lia).
  assert (Hval : (224 + c / 4096 - 224) * 4096
                 + (128 + (c / 64) mod 64 - 128) * 64
                 + (128 + c mod 64 - 128) = c).
  { pose proof (Z.div_mod c 64 ltac:(lia)).
    pose proof (Z.div_mod (c / 64) 64 ltac:(lia)).
    assert (c / 64 / 64 = c / 4096) by (rewrite Z.div_div by lia; reflexivity).
    lia. }
  cbn [app utf8_decode]. unfold continuation.
  rewrite !byte_val_u8_small by lia.
  rewrite Hval, Hsur.
  rewrite (proj2 (Z.ltb_ge (224 + c / 4096) 128)) by lia.
  rewrite (proj2 (Z.ltb_ge (224 + c / 4096) 224)) by lia.
  rewrite andb_false_r.
  rewrite (proj2 (Z.leb_le 224 (224 + c / 4096))) by lia.
  rewrite (proj2 (Z.ltb_lt (224 + c / 4096) 240)) by lia.
  cbn [andb negb]. rewrite !andb_false_r. reflexivity.
Qed.

(** ** [volume_id_set_label_unicode16] *)

Lemma poke_next done y tl x j :
  j = Z.of_nat (length done) ->
  poke (done ++ y :: tl) j x = Some ((done ++ [x]) ++ tl).
Proof.
  intros ->. rewrite poke_Some by (rewrite length_app; simpl; lia).
  rewrite Nat2Z.id. f_equal.
  induction done as [|d done IH]; simpl; [reflexivity|]. f_equal. exact IH.
Qed.

Lemma unicode16_out_cons c us :
  unicode16_out (c :: us)
  = if c =? 0 then [x00] else utf8_bytes c ++ unicode16_out us.
Proof. reflexivity. Qed.

(** The loop stores [unicode16_out] of the units it is given. *)
Lemma unicode16_loop_spec endianess buf count :
  count + 2 < 2 ^ 32 ->
  forall k fuel pre rest done tl,
    buf = pre ++ rest ->
    Z.of_nat (length pre) + 2 * Z.of_nat k <= count
      < Z.of_nat (length pre) + 2 * Z.of_nat k + 2 ->
    (k < fuel)%nat ->
    (2 * k <= length rest)%nat ->
    (length (unicode16_out (units16 endianess (take (2 * k) rest)))
     <= length tl)%nat ->
    Z.of_nat (length done + length tl) < 2 ^ 32 ->
    unicode16_loop fuel endianess buf count
      (Z.of_nat (length pre)) (Z.of_nat (length done)) (done ++ tl)
    = Some (done
            ++ unicode16_out (units16 endianess (take (2 * k) rest))
            ++ drop (length (unicode16_out
                               (units16 endianess (take (2 * k) rest)))) tl).
Proof.
  intros Hcount. induction k as [|k IH];
    intros fuel pre rest done tl Hbuf Hi Hfuel Hrest Hroom Hsize;
    (destruct fuel as [|fuel]; [lia|]); simpl unicode16_loop.
  - rewrite u32_small by lia.
    rewrite (proj2 (Z.leb_gt _ _)) by lia. reflexivity.
  - rewrite u32_small by lia.
    rewrite (proj2 (Z.leb_le _ _)) by lia.
    destruct rest as [|b0 [|b1 rest]]; simpl in Hrest; try lia.
    replace (2 * S k)%nat with (S (S (2 * k))) in * by lia.
    simpl take in *. simpl units16 in *.
    rewrite unicode16_out_cons in *.
    rewrite Nat2Z.id.
    replace (Z.to_nat (Z.of_nat (length pre) + 1)) with (S (length pre)) by lia.
    assert (Hb0 : buf !! length pre = Some b0)
      by (subst buf; apply list_lookup_middle; reflexivity).
    assert (Hb1 : buf !! S (length pre) = Some b1).
    { subst buf. rewrite (cons_middle b0), app_assoc.
      apply list_lookup_middle. rewrite length_app. simpl. lia. }
    rewrite Hb0, Hb1. simpl.
    pose proof (unit16_range endianess b0 b1) as Hc.
    set (c := unit16 endianess b0 b1) in *.
    assert (Hpre : Z.of_nat (length pre) + 2
                   = Z.of_nat (length (pre ++ [b0; b1])))
      by (rewrite length_app; simpl; lia).
    assert (Hbuf' : buf = (pre ++ [b0; b1]) ++ rest)
      by (rewrite <- app_assoc; exact Hbuf).
    destruct (Z.eqb_spec c 0) as [Hz|Hnz].
    { destruct tl as [|y tl]; simpl in Hroom; [lia|].
      rewrite (poke_next done y tl) by reflexivity.
      rewrite <- app_assoc. reflexivity. }
    destruct (Z.ltb_spec c 128) as [H1|H1].
    { assert (He : utf8_bytes c = [u8 c])
        by (unfold utf8_bytes; rewrite (proj2 (Z.ltb_lt c 128)) by lia;
            reflexivity).
      rewrite He in *. simpl in Hroom |- *.
      destruct tl as [|y tl]; simpl in Hroom, Hsize; [lia|].
      rewrite (poke_next done y tl) by reflexivity. simpl.
      rewrite u32_small by lia.
      replace (Z.of_nat (length done) + 1)
        with (Z.of_nat (length (done ++ [u8 c])))
        by (rewrite length_app; simpl; lia).
      rewrite Hpre.
      rewrite (IH fuel (pre ++ [b0; b1]) rest (done ++ [u8 c]) tl);
        try (rewrite ?length_app; simpl; lia); auto.
      rewrite <- app_assoc. reflexivity. }
    destruct (Z.ltb_spec c 2048) as [H2|H2].
    { pose proof (utf8_two_bytes c ltac:(lia)) as He.
      rewrite <- He in *. simpl in Hroom |- *.
      destruct tl as [|y1 [|y2 tl]]; simpl in Hroom, Hsize; try lia.
      rewrite (poke_next done y1 (y2 :: tl)) by reflexivity. simpl.
      rewrite !u32_small by lia.
      rewrite (poke_next (done ++ [_]) y2 tl)
        by (rewrite length_app; simpl; lia).
      simpl.
      rewrite <- (app_assoc done [_] [_]). simpl.
      match goal with
      | |- context [done ++ [?x1; ?x2]] =>
          replace (Z.of_nat (length done) + 2)
            with (Z.of_nat (length (done ++ [x1; x2])))
            by (rewrite length_app; simpl; lia)
      end.
      rewrite Hpre.
      rewrite (IH fuel (pre ++ [b0; b1]) rest _ tl);
        try (rewrite ?length_app; simpl; lia); auto.
      rewrite <- app_assoc. reflexivity. }
    pose proof (utf8_three_bytes c ltac:(lia)) as He.
    rewrite <- He in *. simpl in Hroom |- *.
    destruct tl as [|y1 [|y2 [|y3 tl]]]; simpl in Hroom, Hsize; try lia.
    rewrite (poke_next done y1 (y2 :: y3 :: tl)) by reflexivity. simpl.
    rewrite !u32_small by lia.
    rewrite (poke_next (done ++ [_]) y2 (y3 :: tl))
      by (rewrite length_app; simpl; lia).
    simpl.
    rewrite (poke_next ((done ++ [_]) ++ [_]) y3 tl)
      by (rewrite !length_app; simpl; lia).
    simpl.
    rewrite <- !(app_assoc done). simpl.
    match goal with
    | |- unicode16_loop _ _ _ _ _ _ (done ++ ?x1 :: ?x2 :: ?x3 :: tl) = _ =>
        change (done ++ x1 :: x2 :: x3 :: tl)
          with (done ++ [x1; x2; x3] ++ tl);
        rewrite (app_assoc done [x1; x2; x3] tl);
        replace (Z.of_nat (length done) + 3)
          with (Z.of_nat (length (done ++ [x1; x2; x3])))
          by (rewrite length_app; simpl; lia)
    end.
    rewrite Hpre.
    rewrite (IH fuel (pre ++ [b0; b1]) rest _ tl);
      try (rewrite ?length_app; simpl; lia); auto.
    rewrite <- app_assoc. reflexivity.
Qed.

Lemma units16_length endianess l :
  length (units16 endianess l) = (length l / 2)%nat.
Proof.
  assert (H : forall n l, (length l <= n)%nat ->
                length (units16 endianess l) = (length l / 2)%nat).
  { clear l. induction n as [|n IH]; intros [|b0 [|b1 l]] Hl;
      cbn [units16 length] in *; try reflexivity; try lia.
    rewrite IH by lia.
    change (S (S (length l))) with (1 * 2 + length l)%nat.
    rewrite Nat.div_add_l by lia. lia. }
  apply (H (length l)). lia.
Qed.

Lemma unicode16_out_length us :
  (length (unicode16_out us) <= 3 * length us)%nat.
Proof.
  induction us as [|c us IH]; simpl; [lia|].
  destruct (c =? 0); simpl; [lia|].
  rewrite length_app. pose proof (utf8_bytes_length c). lia.
Qed.

(** What is stored: the UTF-8 form of the units before the first zero
    unit, and a NUL when there is a zero unit. *)
Lemma unicode16_out_split us :
  unicode16_out us
  = flat_map utf8_bytes (until_zero us)
    ++ (if decide (0 ∈ us) then [x00] else []).
Proof.
  induction us as [|c us IH]; cbn [unicode16_out until_zero].
  - rewrite decide_False by apply not_elem_of_nil. reflexivity.
  - destruct (Z.eqb_spec c 0) as [->|Hnz].
    + rewrite decide_True by apply list_elem_of_here. reflexivity.
    + cbn [flat_map]. rewrite IH, <- app_assoc. f_equal. f_equal.
      destruct (decide (0 ∈ us)) as [Hin|Hin].
      * rewrite decide_True by (apply list_elem_of_further; exact Hin).
        reflexivity.
      * rewrite decide_False; [reflexivity|].
        intros Hin'. apply elem_of_cons in Hin'. destruct Hin'; [lia|auto].
Qed.

Lemma until_zero_range us :
  Forall (fun c => 0 <= c < 65536) us ->
  Forall (fun c => 0 < c < 65536) (until_zero us).
Proof.
  induction 1 as [|c us Hc _ IH]; simpl; [constructor|].
  destruct (Z.eqb_spec c 0); constructor; [lia|exact IH].
Qed.

Lemma u8_of_val b z : byte_val b = z -> u8 z = b.
Proof. intros <-. apply u8_byte_val. Qed.

Lemma continuation_range b :
  continuation b = true -> 128 <= byte_val b < 192.
Proof.
  unfold continuation. intros H. apply andb_true_iff in H.
  destruct H as [Hlo Hhi]. zbool. lia.
Qed.

Lemma fmap_cons_Some (c : Z) (o : option (list Z)) cs :
  cons c <$> o = Some cs -> exists cs', o = Some cs' /\ cs = c :: cs'.
Proof.
  destruct o as [cs'|]; simpl; intros H; [|discriminate].
  injection H as <-. exists cs'. split; reflexivity.
Qed.

(** The decoder accepts one byte sequence only for each sequence of code
    points: what it accepts is the UTF-8 form of what it returns. *)
Lemma utf8_decode_inv n : forall s cs,
  (length s <= n)%nat ->
  utf8_decode s = Some cs -> s = flat_map utf8_encode cs.
Proof.
  induction n as [|n IH]; intros s cs Hn Hd.
  { destruct s; [|simpl in Hn; lia]. simpl in Hd. injection Hd as <-.
    reflexivity. }
  destruct s as [|b1 s1]; [simpl in Hd; injection Hd as <-; reflexivity|].
  cbn [utf8_decode] in Hd. cbn [length] in Hn.
  pose proof (byte_val_range b1) as Hb1.
  destruct (byte_val b1 <? 128) eqn:E1.
  { apply fmap_cons_Some in Hd. destruct Hd as (cs' & Hs1 & ->).
    apply IH in Hs1; [|lia]. zbool.
    cbn [flat_map]. rewrite <- Hs1. unfold utf8_encode, utf8_bytes.
    rewrite (proj2 (Z.ltb_lt (byte_val b1) 65536)) by lia.
    rewrite (proj2 (Z.ltb_lt (byte_val b1) 128)) by lia.
    cbn [app]. rewrite u8_byte_val. reflexivity. }
  destruct ((194 <=? byte_val b1) && (byte_val b1 <? 224)) eqn:E2.
  { apply andb_true_iff in E2. destruct E2 as [E2 E2']. zbool.
    destruct s1 as [|b2 s2]; [discriminate|].
    destruct (continuation b2) eqn:C2; [|discriminate].
    apply continuation_range in C2.
    apply fmap_cons_Some in Hd. destruct Hd as (cs' & Hs2 & ->).
    apply IH in Hs2; [|cbn [length] in Hn; lia].
    cbn [flat_map]. rewrite <- Hs2. unfold utf8_encode, utf8_bytes.
    set (c := (byte_val b1 - 192) * 64 + (byte_val b2 - 128)).
    assert (Hq : c / 64 = byte_val b1 - 192).
    { symmetry. apply (Z.div_unique c 64 _ (byte_val b2 - 128)); lia. }
    assert (Hr : c mod 64 = byte_val b2 - 128).
    { symmetry. apply (Z.mod_unique c 64 (byte_val b1 - 192)); lia. }
    rewrite (proj2 (Z.ltb_lt c 65536)) by lia.
    rewrite (proj2 (Z.ltb_ge c 128)) by lia.
    rewrite (proj2 (Z.ltb_lt c 2048)) by lia.
    rewrite Hq, Hr. cbn [app].
    f_equal; [symmetry; apply u8_of_val; lia|].
    f_equal. symmetry; apply u8_of_val; lia. }
  destruct ((224 <=? byte_val b1) && (byte_val b1 <? 240)) eqn:E3.
  { apply andb_true_iff in E3. destruct E3 as [E3 E3']. zbool.
    destruct s1 as [|b2 [|b3 s3]]; [discriminate|discriminate|].
    cbv zeta in Hd.
    set (c := (byte_val b1 - 224) * 4096 + (byte_val b2 - 128) * 64
              + (byte_val b3 - 128)) in *.
    destruct (continuation b2) eqn:C2; [|discriminate].
    destruct (continuation b3) eqn:C3; [|discriminate].
    destruct (2048 <=? c) eqn:Hlo; [|discriminate].
    destruct (surrogate c) eqn:Hsur; [discriminate|].
    cbn [andb negb] in Hd.
    apply continuation_range in C2. apply continuation_range in C3.
    apply fmap_cons_Some in Hd. destruct Hd as (cs' & Hs3 & ->).
    apply IH in Hs3; [|cbn [length] in Hn; lia]. zbool.
    cbn [flat_map]. rewrite <- Hs3. unfold utf8_encode, utf8_bytes.
    assert (Hq : c / 4096 = byte_val b1 - 224).
    { symmetry.
      apply (Z.div_unique c 4096 _
               ((byte_val b2 - 128) * 64 + (byte_val b3 - 128))); lia. }
    assert (Hq' : c / 64 = (byte_val b1 - 224) * 64 + (byte_val b2 - 128)).
    { symmetry. apply (Z.div_unique c 64 _ (byte_val b3 - 128)); lia. }
    assert (Hm : (c / 64) mod 64 = byte_val b2 - 128).
    { rewrite Hq'. symmetry.
      apply (Z.mod_unique _ 64 (byte_val b1 - 224)); lia. }
    assert (Hr : c mod 64 = byte_val b3 - 128).
    { symmetry.
      apply (Z.mod_unique c 64
               ((byte_val b1 - 224) * 64 + (byte_val b2 - 128))); lia. }
    rewrite (proj2 (Z.ltb_lt c 65536)) by lia.
    rewrite (proj2 (Z.ltb_ge c 128)) by lia.
    rewrite (proj2 (Z.ltb_ge c 2048)) by lia.
    rewrite Hq, Hm, Hr. cbn [app].
    f_equal; [symmetry; apply u8_of_val; lia|].
    f_equal; [symmetry; apply u8_of_val; lia|].
    f_equal. symmetry; apply u8_of_val; lia. }
  destruct ((240 <=? byte_val b1) && (byte_val b1 <? 245)) eqn:E4;
    [|discriminate].
  apply andb_true_iff in E4. destruct E4 as [E4 E4']. zbool.
  destruct s1 as [|b2 [|b3 [|b4 s4]]]; [discriminate..|].
  cbv zeta in Hd.
  set (c := (byte_val b1 - 240) * 262144 + (byte_val b2 - 128) * 4096
            + (byte_val b3 - 128) * 64 + (byte_val b4 - 128)) in *.
  destruct (continuation b2) eqn:C2; [|discriminate].
  destruct (continuation b3) eqn:C3; [|discriminate].
  destruct (continuation b4) eqn:C4; [|discriminate].
  destruct (65536 <=? c) eqn:Hlo; [|discriminate].
  destruct (c <=? 1114111) eqn:Hhi; [|discriminate].
  cbn [andb] in Hd.
  apply continuation_range in C2. apply continuation_range in C3.
  apply continuation_range in C4.
  apply fmap_cons_Some in Hd. destruct Hd as (cs' & Hs4 & ->).
  apply IH in Hs4; [|cbn [length] in Hn; lia]. zbool.
  cbn [flat_map]. rewrite <- Hs4. unfold utf8_encode.
  assert (Hq : c / 262144 = byte_val b1 - 240).
  { symmetry.
    apply (Z.div_unique c 262144 _
             ((byte_val b2 - 128) * 4096 + (byte_val b3 - 128) * 64
              + (byte_val b4 - 128))); lia. }
  assert (Hq2 : c / 4096
                = (byte_val b1 - 240) * 64 + (byte_val b2 - 128)).
  { symmetry.
    apply (Z.div_unique c 4096 _
             ((byte_val b3 - 128) * 64 + (byte_val b4 - 128))); lia. }
  assert (Hq3 : c / 64
                = ((byte_val b1 - 240) * 64 + (byte_val b2 - 128)) * 64
                  + (byte_val b3 - 128)).
  { symmetry. apply (Z.div_unique c 64 _ (byte_val b4 - 128)); lia. }
  assert (Hm2 : (c / 4096) mod 64 = byte_val b2 - 128).
  { rewrite Hq2. symmetry.
    apply (Z.mod_unique _ 64 (byte_val b1 - 240)); lia. }
  assert (Hm3 : (c / 64) mod 64 = byte_val b3 - 128).
  { rewrite Hq3. symmetry.
    apply (Z.mod_unique _ 64
             ((byte_val b1 - 240) * 64 + (byte_val b2 - 128))); lia. }
  assert (Hr : c mod 64 = byte_val b4 - 128).
  { symmetry.
    apply (Z.mod_unique c 64
             (((byte_val b1 - 240) * 64 + (byte_val b2 - 128)) * 64
              + (byte_val b3 - 128))); lia. }
  rewrite (proj2 (Z.ltb_ge c 65536)) by lia.
  rewrite Hq, Hm2, Hm3, Hr. cbn [app].
  f_equal; [symmetry; apply u8_of_val; lia|].
  f_equal; [symmetry; apply u8_of_val; lia|].
  f_equal; [symmetry; apply u8_of_val; lia|].
  f_equal. symmetry; apply u8_of_val; lia.
Qed.

(** So the decoder is injective: a sequence of code points is the
    decoding of at most one byte sequence. *)
Lemma utf8_decode_inj s t cs :
  utf8_decode s = Some cs -> utf8_decode t = Some cs -> s = t.
Proof.
  intros Hs Ht.
  rewrite (utf8_decode_inv (length s) s cs (le_n _) Hs).
  rewrite (utf8_decode_inv (length t) t cs (le_n _) Ht).
  reflexivity.
Qed.

(** Decoding the UTF-8 form of a sequence of units that holds no
    surrogate gives the units. *)
Lemma utf8_decode_encode cs :
  Forall (fun c => 0 < c < 65536) cs ->
  Forall (fun c => surrogate c = false) cs ->
  utf8_decode (flat_map utf8_bytes cs) = Some cs.
Proof.
  induction 1 as [|c cs Hc _ IH]; intros Hs; [reflexivity|].
  inversion Hs as [|? ? Hsc Hscs]; subst.
  cbn [flat_map]. rewrite utf8_decode_bytes by (lia || exact Hsc).
  rewrite (IH Hscs). reflexivity.
Qed.

(** The three-byte form of a surrogate makes the whole sequence no UTF-8. *)
Lemma utf8_decode_encode_surrogate cs :
  Forall (fun c => 0 < c < 65536) cs ->
  Exists (fun c => surrogate c = true) cs ->
  utf8_decode (flat_map utf8_bytes cs) = None.
Proof.
  induction 1 as [|c cs Hc _ IH]; intros Hs; [inversion Hs|].
  cbn [flat_map].
  destruct (surrogate c) eqn:Hsc.
  - apply utf8_decode_surrogate. exact Hsc.
  - rewrite utf8_decode_bytes by (lia || exact Hsc).
    inversion Hs as [? ? Hc'|? ? Hcs]; subst; [congruence|].
    rewrite (IH Hcs). reflexivity.
Qed.

Lemma utf8_bytes_no_nul c :
  0 < c < 65536 -> Forall (fun b => b <> x00) (utf8_bytes c).
Proof.
  intros Hc. unfold utf8_bytes.
  assert (Hu : forall z, 0 < z < 256 -> u8 z <> x00).
  { intros z Hz Heq. apply (f_equal byte_val) in Heq.
    rewrite byte_val_u8_small in Heq by lia.
    change (byte_val x00) with 0 in Heq. lia. }
  assert (0 <= c / 64) by (apply Z.div_pos; lia).
  assert (0 <= c / 4096) by (apply Z.div_pos; lia).
  assert (c / 4096 < 16) by (apply Z.div_lt_upper_bound; lia).
  assert (0 <= c mod 64 < 64) by (apply Z.mod_pos_bound; lia).
  assert (0 <= (c / 64) mod 64 < 64) by (apply Z.mod_pos_bound; lia).
  destruct (Z.ltb_spec c 128); [repeat constructor; apply Hu; lia|].
  destruct (Z.ltb_spec c 2048).
  - assert (c / 64 < 32) by (apply Z.div_lt_upper_bound; lia).
    repeat constructor; apply Hu; lia.
  - repeat constructor; apply Hu; lia.
Qed.

Lemma cstring_no_nul s : Forall (fun b => b <> x00) s -> cstring s = s.
Proof.
  induction 1 as [|b s Hb _ IH]; simpl; [reflexivity|].
  destruct (byte_eqb_spec b x00); [contradiction|]. f_equal. exact IH.
Qed.

Lemma utf8_no_nul cs :
  Forall (fun c => 0 < c < 65536) cs ->
  cstring (flat_map utf8_bytes cs) = flat_map utf8_bytes cs.
Proof.
  intros Hcs. apply cstring_no_nul.
  induction Hcs as [|c cs Hc _ IH]; cbn [flat_map]; [constructor|].
  apply Forall_app. split; [apply utf8_bytes_no_nul; exact Hc|exact IH].
Qed.

Lemma units16_range endianess l :
  Forall (fun c => 0 <= c < 65536) (units16 endianess l).
Proof.
  assert (H : forall n l, (length l <= n)%nat ->
                Forall (fun c => 0 <= c < 65536) (units16 endianess l)).
  { clear l. induction n as [|n IH]; intros [|b0 [|b1 l]] Hl; simpl in *;
      try constructor; try lia.
    - apply unit16_range.
    - apply IH. lia. }
  apply (H (length l)). lia.
Qed.

(** X12. [volume_id_set_label_unicode16] on [count] readable bytes, with
    [label] large enough for what is stored (three bytes for each of the
    [count / 2] units are always enough), is defined: it changes [label]
    only and stores, from [label[0]] on, the UTF-8 form of each 16-bit
    unit before the first zero unit, followed by a NUL when there is a zero
    unit; the cells behind are left as they were. *)
Theorem set_label_unicode16_stores id buf endianess count :
  0 <= count -> count + 2 < 2 ^ 32 ->
  count <= Z.of_nat (length buf) ->
  Z.of_nat (length (label id)) < 2 ^ 32 ->
  let us := units16 endianess (take (2 * Z.to_nat (count / 2)) buf) in
  (length (unicode16_out us) <= length (label id))%nat ->
  (length (unicode16_out us) <= 3 * Z.to_nat (count / 2))%nat
  /\ volume_id_set_label_unicode16 id buf endianess count
     = Some (with_label id
               (unicode16_out us
                ++ drop (length (unicode16_out us)) (label id))).
Proof.
  intros H0 H32 Hbuf Hlab us Hroom.
  pose proof (Z.div_mod count 2 ltac:(lia)) as Hdm.
  pose proof (Z.mod_pos_bound count 2 ltac:(lia)) as Hm.
  assert (Hk : 0 <= count / 2) by (apply Z.div_pos; lia).
  split.
  - etrans; [apply unicode16_out_length|].
    unfold us. rewrite units16_length, length_take.
    assert (Hd : (Nat.min (2 * Z.to_nat (count / 2)) (length buf) / 2
                  <= Z.to_nat (count / 2))%nat).
    { rewrite Nat.min_l by lia. rewrite Nat.mul_comm, Nat.div_mul by lia. lia. }
    lia.
  - unfold volume_id_set_label_unicode16.
    assert (Hloop :
      unicode16_loop (S (Z.to_nat (count / 2))) endianess buf count 0 0
        (label id)
      = Some (unicode16_out us ++ drop (length (unicode16_out us)) (label id))).
    { apply (unicode16_loop_spec endianess buf count H32
               (Z.to_nat (count / 2)) (S (Z.to_nat (count / 2)))
               [] buf [] (label id) eq_refl);
        cbn [length app]; try lia. exact Hroom. }
    rewrite Hloop. reflexivity.
Qed.

Lemma set_label_unicode16_result id buf endianess count :
  0 <= count -> count + 2 < 2 ^ 32 ->
  count <= Z.of_nat (length buf) ->
  3 * (count / 2) <= Z.of_nat (length (label id)) < 2 ^ 32 ->
  let w := unicode16_out
             (units16 endianess (take (2 * Z.to_nat (count / 2)) buf)) in
  volume_id_set_label_unicode16 id buf endianess count
  = Some (with_label id (w ++ drop (length w) (label id))).
Proof.
  intros H0 H32 Hbuf Hlab w.
  pose proof (Z.div_mod count 2 ltac:(lia)) as Hdm.
  pose proof (Z.mod_pos_bound count 2 ltac:(lia)) as Hm.
  assert (Hk : 0 <= count / 2) by (apply Z.div_pos; lia).
  assert (Hw : (length w <= 3 * Z.to_nat (count / 2))%nat).
  { etrans; [apply unicode16_out_length|].
    rewrite units16_length, length_take, Nat.min_l by lia.
    rewrite (Nat.mul_comm 2), Nat.div_mul by lia. lia. }
  unfold volume_id_set_label_unicode16.
  assert (Hloop :
    unicode16_loop (S (Z.to_nat (count / 2))) endianess buf count 0 0
      (label id)
    = Some (w ++ drop (length w) (label id))).
  { apply (unicode16_loop_spec endianess buf count H32
             (Z.to_nat (count / 2)) (S (Z.to_nat (count / 2)))
             [] buf [] (label id) eq_refl);
      cbn [length app]; try lia. fold w. lia. }
  rewrite Hloop. reflexivity.
Qed.

(** X13. When one of the [count / 2] units is zero and [label] has room
    for three bytes a unit, the string [volume_id_set_label_unicode16]
    leaves in [label] is, byte for byte, the one-, two- or three-byte
    form of each unit before the first zero unit.  Surrogates are not
    paired: each is stored in a three-byte form of its own.  So the
    string is UTF-8, and decodes to exactly those units, when none of
    them is a surrogate, and it is no UTF-8 at all when one is. *)
Theorem set_label_unicode16_round_trip id buf endianess count :
  0 <= count -> count + 2 < 2 ^ 32 ->
  count <= Z.of_nat (length buf) ->
  3 * (count / 2) <= Z.of_nat (length (label id)) < 2 ^ 32 ->
  let us := units16 endianess (take (2 * Z.to_nat (count / 2)) buf) in
  0 ∈ us ->
  exists l,
    volume_id_set_label_unicode16 id buf endianess count
    = Some (with_label id l)
    /\ cstring l = flat_map utf8_bytes (until_zero us)
    /\ (Forall (fun c => surrogate c = false) (until_zero us) ->
        utf8_decode (cstring l) = Some (until_zero us))
    /\ (Exists (fun c => surrogate c = true) (until_zero us) ->
        utf8_decode (cstring l) = None).
Proof.
  intros H0 H32 Hbuf Hlab us Hzero.
  eexists. split; [apply set_label_unicode16_result; assumption|].
  fold us. rewrite unicode16_out_split, decide_True by exact Hzero.
  pose proof (until_zero_range us (units16_range _ _)) as Hr.
  rewrite <- (app_assoc _ [x00]). simpl app.
  rewrite cstring_app_nul by (apply utf8_no_nul; exact Hr).
  split; [reflexivity|]. split; intros Hs.
  - apply utf8_decode_encode; assumption.
  - apply utf8_decode_encode_surrogate; assumption.
Qed.

Lemma until_zero_all us : 0 ∉ us -> until_zero us = us.
Proof.
  induction us as [|c us IH]; intros Hnz; simpl; [reflexivity|].
  destruct (Z.eqb_spec c 0) as [->|_].
  - exfalso. apply Hnz. apply list_elem_of_here.
  - f_equal. apply IH. intros Hin. apply Hnz.
    apply list_elem_of_further. exact Hin.
Qed.

Lemma cstring_app_no_nul s t :
  Forall (fun b => b <> x00) s -> cstring (s ++ t) = s ++ cstring t.
Proof.
  induction 1 as [|b s Hb _ IH]; [reflexivity|].
  cbn [app cstring]. destruct (Byte.eqb b x00) eqn:Hq.
  - apply Byte.byte_dec_bl in Hq. contradiction.
  - rewrite IH. reflexivity.
Qed.

(** X14. When none of the [count / 2] units is zero, no terminator is
    stored: [label] holds, from [label[0]] on, the one-, two- or
    three-byte form of each of the units, none of these bytes is NUL,
    and the cells behind them keep what they held before the call; so
    the string read from [label] runs on into the old content.  The bytes
    stored decode to the units when no unit is a surrogate. *)
Theorem set_label_unicode16_unterminated id buf endianess count :
  0 <= count -> count + 2 < 2 ^ 32 ->
  count <= Z.of_nat (length buf) ->
  3 * (count / 2) <= Z.of_nat (length (label id)) < 2 ^ 32 ->
  let us := units16 endianess (take (2 * Z.to_nat (count / 2)) buf) in
  let out := flat_map utf8_bytes us in
  0 ∉ us ->
  volume_id_set_label_unicode16 id buf endianess count
  = Some (with_label id (out ++ drop (length out) (label id)))
  /\ Forall (fun b => b <> x00) out
  /\ cstring (out ++ drop (length out) (label id))
     = out ++ cstring (drop (length out) (label id))
  /\ (Forall (fun c => surrogate c = false) us -> utf8_decode out = Some us).
Proof.
  intros H0 H32 Hbuf Hlab us out Hnz.
  pose proof (until_zero_range us (units16_range _ _)) as Hr.
  rewrite until_zero_all in Hr by exact Hnz.
  assert (Hno : Forall (fun b => b <> x00) out).
  { unfold out. clear -Hr.
    induction Hr as [|c cs Hc _ IH]; cbn [flat_map]; [constructor|].
    apply Forall_app. split; [apply utf8_bytes_no_nul; exact Hc|exact IH]. }
  split; [|split; [exact Hno|split]].
  - rewrite set_label_unicode16_result by assumption. fold us.
    rewrite unicode16_out_split, decide_False by exact Hnz.
    rewrite until_zero_all, app_nil_r by exact Hnz. reflexivity.
  - apply cstring_app_no_nul. exact Hno.
  - intros Hs. apply utf8_decode_encode; assumption.
Qed.

(** X15. Units below 128 are stored as one byte each, the unit itself:
    when every unit before the first zero unit is below 128, the string
    left in [label] is those units. *)
Theorem set_label_unicode16_ascii id buf endianess count :
  0 <= count -> count + 2 < 2 ^ 32 ->
  count <= Z.of_nat (length buf) ->
  3 * (count / 2) <= Z.of_nat (length (label id)) < 2 ^ 32 ->
  let us := units16 endianess (take (2 * Z.to_nat (count / 2)) buf) in
  0 ∈ us ->
  Forall (fun c => c < 128) (until_zero us) ->
  exists l,
    volume_id_set_label_unicode16 id buf endianess count
    = Some (with_label id l)
    /\ map byte_val (cstring l) = until_zero us.
Proof.
  intros H0 H32 Hbuf Hlab us Hzero Hascii.
  eexists. split; [apply set_label_unicode16_result; assumption|].
  fold us. rewrite unicode16_out_split, decide_True by exact Hzero.
  pose proof (until_zero_range us (units16_range _ _)) as Hr.
  rewrite <- (app_assoc _ [x00]). simpl app.
  rewrite cstring_app_nul by (apply utf8_no_nul; exact Hr).
  induction Hascii as [|c cs Hc _ IH]; [reflexivity|].
  inversion Hr as [|? ? Hc0 Hr']; subst.
  cbn [flat_map]. unfold utf8_bytes at 1.
  rewrite (proj2 (Z.ltb_lt c 128)) by lia. simpl.
  rewrite byte_val_u8_small by lia. f_equal. apply IH. exact Hr'.
Qed.

(** The loop never looks at an odd last byte. *)
Lemma unicode16_loop_odd endianess buf m fuel : forall i j lbl,
  0 <= m -> 2 * m + 4 < 2 ^ 32 ->
  0 <= i -> i mod 2 = 0 ->
  i <= 2 * m + 2 ->
  unicode16_loop fuel endianess buf (2 * m + 1) i j lbl
  = unicode16_loop fuel endianess buf (2 * m) i j lbl.
Proof.
  induction fuel as [|fuel IH]; intros i j lbl Hm H32 Hi Heven Hle;
    [reflexivity|].
  simpl. rewrite (u32_small (i + 2)) by lia.
  assert (Hnext : (i + 2) mod 2 = 0).
  { rewrite <- Z.add_mod_idemp_l, Heven by lia. reflexivity. }
  assert (Hne : i + 2 <> 2 * m + 1).
  { intros Heq. rewrite Heq in Hnext.
    rewrite Z.add_comm, Z.mul_comm, Z.mod_add in Hnext by lia.
    discriminate Hnext. }
  destruct (Z.leb_spec (i + 2) (2 * m + 1)) as [Hin|Hout];
    destruct (Z.leb_spec (i + 2) (2 * m)) as [Hin'|Hout']; try lia;
    [|reflexivity].
  destruct (buf !! Z.to_nat i) as [b0|]; simpl; [|reflexivity].
  destruct (buf !! Z.to_nat (i + 1)) as [b1|]; simpl; [|reflexivity].
  destruct (unit16 endianess b0 b1 =? 0); [reflexivity|].
  repeat match goal with
  | |- context [if ?c then _ else _] => destruct c
  | |- context [poke ?a ?k ?x] =>
      destruct (poke a k x); simpl; [|reflexivity]
  end; apply IH; lia.
Qed.

(** X16. An odd [count] behaves as [count - 1]: the loop stops when fewer
    than two bytes are left and the last byte is never read. *)
Theorem set_label_unicode16_odd_count id buf endianess m :
  0 <= m -> 2 * m + 4 < 2 ^ 32 ->
  volume_id_set_label_unicode16 id buf endianess (2 * m + 1)
  = volume_id_set_label_unicode16 id buf endianess (2 * m).
Proof.
  intros Hm H32. unfold volume_id_set_label_unicode16.
  replace ((2 * m + 1) / 2) with m
    by (apply (Z.div_unique _ 2 m 1); lia).
  replace (2 * m / 2) with m
    by (apply (Z.div_unique _ 2 m 0); lia).
  rewrite unicode16_loop_odd by (try reflexivity; lia). reflexivity.
Qed.

(** ** [volume_id_set_uuid] *)

Lemma hex_digit_val upper n :
  0 <= n < 16 ->
  byte_val (hex_digit upper n)
  = if n <? 10 then 48 + n else (if upper then 55 else 87) + n.
Proof.
  intros Hn. unfold hex_digit.
  destruct (Z.ltb_spec n 10); destruct upper;
    apply byte_val_u8_small; lia.
Qed.

Lemma hex_value_digit upper n :
  0 <= n < 16 -> hex_value (hex_digit upper n) = Some n.
Proof.
  intros Hn. unfold hex_value. rewrite hex_digit_val by exact Hn.
  destruct (Z.ltb_spec n 10).
  - rewrite (proj2 (Z.leb_le 48 (48 + n))), (proj2 (Z.leb_le (48 + n) 57))
      by lia.
    simpl. f_equal. lia.
  - destruct upper.
    + rewrite (proj2 (Z.leb_gt (55 + n) 57)), andb_false_r by lia.
      rewrite (proj2 (Z.leb_le 65 (55 + n))), (proj2 (Z.leb_le (55 + n) 70))
        by lia.
      simpl. f_equal. lia.
    + rewrite (proj2 (Z.leb_gt (87 + n) 57)), andb_false_r by lia.
      rewrite (proj2 (Z.leb_gt (87 + n) 70)), andb_false_r by lia.
      rewrite (proj2 (Z.leb_le 97 (87 + n))), (proj2 (Z.leb_le (87 + n) 102))
        by lia.
      simpl. f_equal. lia.
Qed.

Lemma hex_digit_other upper n c :
  0 <= n < 16 -> byte_val c < 48 -> Byte.eqb (hex_digit upper n) c = false.
Proof.
  intros Hn Hc. destruct (byte_eqb_spec (hex_digit upper n) c) as [Heq|];
    [|reflexivity].
  apply (f_equal byte_val) in Heq. rewrite hex_digit_val in Heq by exact Hn.
  destruct (n <? 10), upper; lia.
Qed.

Lemma byte_nibbles b :
  0 <= byte_val b / 16 < 16 /\ 0 <= byte_val b mod 16 < 16
  /\ byte_val b / 16 * 16 + byte_val b mod 16 = byte_val b.
Proof.
  pose proof (byte_val_range b) as Hb.
  pose proof (Z.div_mod (byte_val b) 16 ltac:(lia)).
  pose proof (Z.mod_pos_bound (byte_val b) 16 ltac:(lia)).
  assert (0 <= byte_val b / 16) by (apply Z.div_pos; lia).
  assert (byte_val b / 16 < 16) by (apply Z.div_lt_upper_bound; lia).
  lia.
Qed.

(** Two digits printed for a byte are read back as that byte. *)
Lemma parse_hex2 upper b s :
  parse_uuid (hex2 upper b ++ s) = cons b <$> parse_uuid s.
Proof.
  destruct (byte_nibbles b) as (Hhi & Hlo & Hsum).
  unfold hex2. cbn [app parse_uuid].
  rewrite hex_digit_other by (auto; vm_compute; reflexivity).
  rewrite !hex_value_digit by assumption. simpl.
  rewrite Hsum, u8_byte_val. reflexivity.
Qed.

Lemma parse_hex2_end upper b : parse_uuid (hex2 upper b) = Some [b].
Proof.
  rewrite <- (app_nil_r (hex2 upper b)), parse_hex2. reflexivity.
Qed.

Lemma parse_dash s : parse_uuid (dash :: s) = parse_uuid s.
Proof. reflexivity. Qed.

Lemma hex2_no_nul upper b : Forall (fun c => c <> x00) (hex2 upper b).
Proof.
  destruct (byte_nibbles b) as (Hhi & Hlo & _).
  assert (H : forall n, 0 <= n < 16 -> hex_digit upper n <> x00).
  { intros n Hn Heq. apply (f_equal byte_val) in Heq.
    rewrite hex_digit_val in Heq by exact Hn.
    change (byte_val x00) with 0 in Heq. destruct (n <? 10), upper; lia. }
  unfold hex2. repeat constructor; apply H; assumption.
Qed.

Lemma forallb_zero l :
  forallb (fun b => Byte.eqb b x00) l = true -> l = repeat x00 (length l).
Proof.
  induction l as [|b l IH]; simpl; [reflexivity|].
  destruct (byte_eqb_spec b x00) as [->|]; simpl; [|discriminate].
  intros H. f_equal. apply IH. exact H.
Qed.

Lemma forallb_zero_repeat n :
  forallb (fun b => Byte.eqb b x00) (repeat x00 n) = true.
Proof. induction n as [|n IH]; simpl; auto. Qed.

Lemma sprintf_Some dst s :
  (length s < length dst)%nat ->
  sprintf dst s = Some (s ++ x00 :: drop (S (length s)) dst).
Proof.
  intros H. unfold sprintf. rewrite (proj2 (Z.ltb_lt _ _)) by lia.
  reflexivity.
Qed.

Ltac first_bytes buf :=
  repeat (let b := fresh "b" in
          destruct buf as [|b buf]; [simpl in *; lia|]).


Ltac uuid_text_no_nul :=
  apply cstring_no_nul;
  repeat (apply Forall_app; split);
  try apply hex2_no_nul;
  repeat constructor; discriminate.

Ltac parse_uuid_text :=
  cbn [app];
  repeat (rewrite parse_hex2 || rewrite parse_dash || rewrite parse_hex2_end);
  reflexivity.

(** X17. For the four binary formats, when the bytes given are not all
    zero and [uuid] has more than 36 cells, [volume_id_set_uuid] is
    defined, records the raw bytes and their number, and leaves in [uuid]
    a text that reads back, two hexadecimal digits a byte and dashes
    skipped, as the raw bytes: in reverse order for [UUID_DOS] and
    [UUID_NTFS], in order for [UUID_HFS] and [UUID_DCE]. *)
Theorem set_uuid_round_trip id buf format :
  format <> UUID_DCE_STRING ->
  (uuid_size format <= length buf)%nat ->
  (uuid_size format <= length (uuid_raw id))%nat ->
  (36 < length (uuid id))%nat ->
  take (uuid_size format) buf <> repeat x00 (uuid_size format) ->
  exists id',
    volume_id_set_uuid id buf format = Some id'
    /\ parse_uuid (cstring (uuid id'))
       = Some (uuid_order format (take (uuid_size format) buf))
    /\ uuid_raw_len id' = Z.of_nat (uuid_size format)
    /\ take (uuid_size format) (uuid_raw id') = take (uuid_size format) buf.
Proof.
  intros Hfmt Hbuf Hraw Huuid Hnz.
  destruct format; try congruence; cbn [uuid_size uuid_order] in *;
    first_bytes buf; unfold volume_id_set_uuid;
    (rewrite memcpy_Some by (simpl; lia)); cbn [mbind option_bind];
    (match goal with
     | |- context [forallb ?f ?l] =>
         destruct (forallb f l) eqn:Hz;
         [exfalso; apply forallb_zero in Hz; apply Hnz; exact Hz|]
     end);
    cbn [nth];
    (rewrite sprintf_Some by (unfold hex2; simpl; lia));
    cbn [mbind option_bind]; eexists; (split; [reflexivity|]);
    cbn [uuid with_uuid uuid_raw uuid_raw_len]; (split; [|split]);
    try reflexivity.
  all: try (rewrite cstring_app_nul by uuid_text_no_nul; parse_uuid_text).
  all: rewrite take_app_le by (rewrite length_take; simpl; lia);
       rewrite take_take; reflexivity.
Qed.


(** X18. When the bytes given are all zero, [volume_id_set_uuid] records
    them and their number in [uuid_raw] and [uuid_raw_len] and returns
    before any text is made: [uuid] keeps whatever it held. *)
Theorem set_uuid_all_zero id buf format :
  (uuid_size format <= length buf)%nat ->
  (uuid_size format <= length (uuid_raw id))%nat ->
  take (uuid_size format) buf = repeat x00 (uuid_size format) ->
  volume_id_set_uuid id buf format
  = Some (VolumeIdInfo (label_raw id) (label_raw_len id) (label id)
            (repeat x00 (uuid_size format)
             ++ drop (uuid_size format) (uuid_raw id))
            (Z.of_nat (uuid_size format))
            (uuid id) (usage_id id) (usage id)).
Proof.
  intros Hbuf Hraw Hzero. unfold volume_id_set_uuid.
  destruct format; cbn [uuid_size] in *;
    (rewrite (memcpy_Some (uuid_raw id)) by lia); cbn [mbind option_bind];
    match goal with
    | |- context [forallb ?f (take (Z.to_nat ?n) buf)] =>
        replace (take (Z.to_nat n) buf) with (repeat x00 (Z.to_nat n))
          by (symmetry; exact Hzero)
    end;
    rewrite forallb_zero_repeat; reflexivity.
Qed.

Lemma cstring_cut s t : cstring (s ++ x00 :: t) = cstring s.
Proof.
  induction s as [|c s IH]; simpl; [reflexivity|].
  destruct (Byte.eqb c x00); [reflexivity|]. f_equal. exact IH.
Qed.

(** X19. For [UUID_DCE_STRING], when the 36 bytes given are not all zero
    and [uuid] has more than 36 cells, the text left in [uuid] is the 36
    bytes themselves, up to their first NUL. *)
Theorem set_uuid_dce_string id buf :
  (36 <= length buf)%nat ->
  (36 <= length (uuid_raw id))%nat ->
  (36 < length (uuid id))%nat ->
  take 36 buf <> repeat x00 36 ->
  exists id',
    volume_id_set_uuid id buf UUID_DCE_STRING = Some id'
    /\ cstring (uuid id') = cstring (take 36 buf)
    /\ uuid_raw_len id' = 36
    /\ take 36 (uuid_raw id') = take 36 buf.
Proof.
  intros Hbuf Hraw Huuid Hnz. unfold volume_id_set_uuid.
  rewrite !memcpy_Some by lia. cbn [mbind option_bind].
  change (Z.to_nat 36) with 36%nat.
  destruct (forallb _ (take 36 buf)) eqn:Hz.
  { exfalso. apply forallb_zero in Hz. rewrite length_take in Hz.
    rewrite Nat.min_l in Hz by lia. contradiction. }
  rewrite poke_Some
    by (rewrite length_app, length_take, length_drop; lia).
  cbn [mbind option_bind]. eexists. split; [reflexivity|].
  cbn [uuid with_uuid uuid_raw uuid_raw_len]. split; [|split].
  - change (Z.to_nat 36) with 36%nat.
    rewrite insert_take_drop
      by (rewrite length_app, length_take, length_drop; lia).
    rewrite take_app_length' by (rewrite length_take; lia).
    apply cstring_cut.
  - reflexivity.
  - rewrite take_app_le by (rewrite length_take; lia).
    rewrite take_take. reflexivity.
Qed.

(** X20. [volume_id_set_uuid] is defined for every format as soon as the
    bytes of the format can be read from [buf], [uuid_raw] has room for
    them and [uuid] has more than 36 cells; it changes no other field than
    [uuid_raw], [uuid_raw_len] and [uuid], and no array changes size. *)
Theorem set_uuid_defined id buf format :
  (uuid_size format <= length buf)%nat ->
  (uuid_size format <= length (uuid_raw id))%nat ->
  (36 < length (uuid id))%nat ->
  exists raw u,
    volume_id_set_uuid id buf format
    = Some (VolumeIdInfo (label_raw id) (label_raw_len id) (label id)
              raw (Z.of_nat (uuid_size format)) u (usage_id id) (usage id))
    /\ length raw = length (uuid_raw id)
    /\ length u = length (uuid id).
Proof.
  intros Hbuf Hraw Huuid.
  assert (Hlen : forall n,
            (n <= length buf)%nat -> (n <= length (uuid_raw id))%nat ->
            length (take n buf ++ drop n (uuid_raw id))
            = length (uuid_raw id))
    by (intros n ? ?; rewrite length_app, length_take, length_drop; lia).
  unfold volume_id_set_uuid.
  destruct format; cbn [uuid_size] in *;
    (rewrite (memcpy_Some (uuid_raw id)) by lia); cbn [mbind option_bind];
    (match goal with
     | |- context [forallb ?f ?l] => destruct (forallb f l)
     end;
     [eexists _, _; split; [reflexivity|];
      split; [apply Hlen; lia|reflexivity]|]).
  1-4: rewrite sprintf_Some by (unfold hex2; simpl; lia);
       cbn [mbind option_bind]; eexists _, _; (split; [reflexivity|]);
       (split; [apply Hlen; lia|]);
       rewrite length_app; unfold hex2; simpl; rewrite length_drop; lia.
  rewrite memcpy_Some by lia. cbn [mbind option_bind].
  rewrite poke_Some by (rewrite length_app, length_take, length_drop; lia).
  cbn [mbind option_bind]. eexists _, _. split; [reflexivity|].
  split; [apply Hlen; lia|].
  rewrite length_insert, length_app, length_take, length_drop. lia.
Qed.

(** ** [usage_to_string], [volume_id_set_usage], [volume_id_set_usage_part] *)

Lemma usage_to_string_cases E u :
  (u ∈ enumerators E
   /\ exists name, usage_to_string E u = Some name /\ name <> ""%string)
  \/ ((u ∉ enumerators E) /\ usage_to_string E u = None).
Proof.
  unfold usage_to_string, enumerators.
  repeat match goal with
  | |- context [u =? ?e] =>
      destruct (Z.eqb_spec u e) as [Heq|?];
      [left; split;
       [rewrite !elem_of_cons; tauto
       |eexists; split; [reflexivity|discriminate]]|]
  end.
  right. split; [|reflexivity].
  rewrite !elem_of_cons, elem_of_nil. tauto.
Qed.

(** X21. [usage_to_string] names the eight enumerators and nothing else:
    it returns [NULL] exactly for a value that is no enumerator, and
    otherwise one of eight non-empty names, that of the enumerator (the
    enumerators being distinct, as case labels are).  No two values
    share a name.  [volume_id_set_usage] and [volume_id_set_usage_part]
    store the value they are given with the result for it, so with
    [NULL] for a value that is no enumerator; a [usage] string that is
    stored determines the [usage_id] stored with it. *)
Theorem usage_names_distinct E u v id part :
  NoDup (enumerators E) ->
  (usage_to_string E u = None <-> u ∉ enumerators E)
  /\ usage_to_string E u <> Some ""%string
  /\ map (usage_to_string E) (enumerators E)
     = [Some "filesystem"; Some "partitiontable"; Some "other"; Some "raid";
        Some "disklabel"; Some "crypto"; Some "unprobed";
        Some "unused"]%string
  /\ (u ∈ enumerators E ->
      usage_to_string E u = usage_to_string E v -> u = v)
  /\ volume_id_set_usage E id u
     = VolumeIdInfo (label_raw id) (label_raw_len id) (label id)
         (uuid_raw id) (uuid_raw_len id) (uuid id) u (usage_to_string E u)
  /\ volume_id_set_usage_part E part u
     = VolumeIdPartition u (usage_to_string E u)
  /\ (usage (volume_id_set_usage E id u) <> None ->
      usage (volume_id_set_usage E id u)
      = usage (volume_id_set_usage E id v) ->
      usage_id (volume_id_set_usage E id u)
      = usage_id (volume_id_set_usage E id v))
  /\ (part_usage (volume_id_set_usage_part E part u) <> None ->
      part_usage (volume_id_set_usage_part E part u)
      = part_usage (volume_id_set_usage_part E part v) ->
      part_usage_id (volume_id_set_usage_part E part u)
      = part_usage_id (volume_id_set_usage_part E part v)).
Proof.
  intros Hnd.
  assert (Hnull : usage_to_string E u = None <-> u ∉ enumerators E).
  { destruct (usage_to_string_cases E u)
      as [(Hin & name & Hname & _)|[Hout Hname]].
    - split; [|contradiction]. intros Hn. congruence.
    - split; [intros _; exact Hout|intros _; exact Hname]. }
  assert (Hinj : usage_to_string E u <> None ->
                 usage_to_string E u = usage_to_string E v -> u = v).
  { unfold usage_to_string.
    repeat match goal with
    | |- context [u =? ?e] => destruct (Z.eqb_spec u e) as [->|?]
    end;
    repeat match goal with
    | |- context [v =? ?e] => destruct (Z.eqb_spec v e) as [->|?]
    end;
    intros Hsome Heq;
    first [reflexivity|discriminate Heq|contradiction]. }
  split; [exact Hnull|].
  split.
  { destruct (usage_to_string_cases E u)
      as [(_ & name & Hname & Hne)|[_ Hname]].
    - rewrite Hname. congruence.
    - rewrite Hname. discriminate. }
  split.
  { unfold enumerators in Hnd.
    repeat match goal with
    | H : NoDup (_ :: _) |- _ =>
        apply NoDup_cons in H; destruct H as [? H]
    end.
    repeat match goal with
    | H : _ ∉ _ :: _ |- _ => apply not_elem_of_cons in H; destruct H as [? H]
    end.
    unfold enumerators. cbn [map]. unfold usage_to_string.
    repeat match goal with
    | H : ?a <> ?b |- _ =>
        rewrite ?(proj2 (Z.eqb_neq a b) H),
          ?(proj2 (Z.eqb_neq b a) (not_eq_sym H));
        clear H
    end.
    rewrite !Z.eqb_refl. reflexivity. }
  split.
  { intros Hin. apply Hinj. intros Hn. apply Hnull in Hn. contradiction. }
  split; [reflexivity|]. split; [reflexivity|].
  split; simpl; exact Hinj.
Qed.


(** * Further properties: the cache *)

Section MoreCache.

(** The values of [SB_BUFFER_SIZE] and [SEEK_BUFFER_SIZE]. *)
Variable SB : Z.
Variable SEEK : Z.

(** X2. Whatever the environment does (failing allocation, seeks or
    reads) and whatever is requested, no sequence of calls stores more
    bytes in a block than the capacity it was allocated with. *)
Theorem run_within_capacity reqs : forall id f rs id' f',
  0 <= SB ->
  Forall (fun q => 0 <= req_len q) reqs ->
  within_capacity SB SEEK id ->
  run SB SEEK reqs id f = (rs, id', f') ->
  within_capacity SB SEEK id'.
Proof.
  induction reqs as [|q reqs IH]; intros id f rs id' f' HSB Hlen Hcap Hrun.
  - simpl in Hrun. inversion Hrun; subst. exact Hcap.
  - simpl in Hrun. inversion Hlen as [|? ? Hq Hrest]; subst.
    destruct (volume_id_get_buffer SB SEEK (req_env q) id f
                (req_off q) (req_len q)) as [[r id1] f1] eqn:Hcall.
    destruct (run SB SEEK reqs id1 f1) as [[rs' id2] f2] eqn:Hrest'.
    inversion Hrun; subst; clear Hrun.
    apply (IH id1 f1 rs' id' f' HSB Hrest); [|exact Hrest'].
    exact (get_buffer_within_capacity SB SEEK _ _ _ _ _ _ _ _ HSB Hq Hcap
             Hcall).
Qed.

(** X3. A request routed to the seek buffer and lying inside the window
    it holds is answered from it: the pointer is [&seekbuf[off -
    seekbuf_off]], nothing is allocated, sought or read, and neither the
    cache nor the file changes. *)
Theorem window_hit env id f off len :
  SB < u64 (off + len) -> len <= SEEK ->
  seekbuf id <> None ->
  seekbuf_off id <= off ->
  u64 (off + len) <= u64 (seekbuf_off id + seekbuf_len id) ->
  volume_id_get_buffer SB SEEK env id f off len
  = (Ok (SeekPtr (u64 (off - seekbuf_off id))), id, f).
Proof.
  intros Hwin Hfit Halloc Hlo Hhi. unfold volume_id_get_buffer. cbv zeta.
  rewrite (proj2 (Z.leb_gt _ _) Hwin), (proj2 (Z.ltb_ge _ _) Hfit).
  destruct id as [sb sl [buf|] so sn]; simpl in *; [|congruence].
  rewrite (proj2 (Z.ltb_ge _ _) Hlo), (proj2 (Z.ltb_ge _ _) Hhi).
  reflexivity.
Qed.

(** X4. A request routed to the seek buffer and not inside the window it
    holds moves the window: when the seek succeeds there is exactly one
    [lseek] to [off] and one [read] of [len] bytes, [seekbuf_off] becomes
    [off] whatever the read gives, and the call returns [&seekbuf[0]] or
    [NULL] for lack of data. *)
Theorem window_miss_moves_window env id f off len :
  SB < u64 (off + len) -> len <= SEEK ->
  seekbuf id <> None \/ malloc_fails env = false ->
  (off <? seekbuf_off id)
  || (u64 (seekbuf_off id + seekbuf_len id) <? u64 (off + len)) = true ->
  lseek_fails env = false -> 0 <= off < 2 ^ 63 ->
  exists r id' f',
    volume_id_get_buffer SB SEEK env id f off len = (r, id', f')
    /\ (r = Ok (SeekPtr 0) \/ r = Null InsufficientData)
    /\ (r = Ok (SeekPtr 0) -> len <= seekbuf_len id')
    /\ seekbuf_off id' = off
    /\ front_untouched id id'
    /\ calls f' = calls f ++ [Lseek off; Read len].
Proof.
  intros Hwin Hfit Hblock Hmiss Hseek Hoff.
  unfold volume_id_get_buffer. cbv zeta.
  rewrite (proj2 (Z.leb_gt _ _) Hwin), (proj2 (Z.ltb_ge _ _) Hfit).
  destruct (window_block env id Hblock) as [buf ->].
  rewrite Hmiss, lseek_reliable by (auto; lia).
  rewrite (proj2 (Z.eqb_neq off (-1))) by lia.
  destruct (read env _ len) as [[n got] f2] eqn:Hrd.
  apply read_spec in Hrd. destruct Hrd as (_ & Hlog & _). simpl in Hlog.
  destruct (Z.ltb_spec (u32 n) len) as [Hshort|Hfull]; cbn [seekbuf_off];
    rewrite ?Z.sub_diag; eexists _, _, _; (split; [reflexivity|]);
    unfold front_untouched; simpl;
    rewrite Hlog, <- app_assoc; simpl; repeat split; auto;
    intros Hr; (discriminate Hr || exact Hfull).
Qed.

(** X6. Over a source whose seeks and reads succeed, a call served by the
    superblock buffer never lowers its valid length, which never exceeds
    the length of the source. *)
Theorem front_valid_len_monotone data env id f off len r id' f' :
  0 <= SB < 2 ^ 32 ->
  lseek_fails env = false -> read_fails env = false ->
  0 <= off -> 0 <= len -> off + len <= SB ->
  cache_inv SB SEEK data id -> contents f = data ->
  volume_id_get_buffer SB SEEK env id f off len = (r, id', f') ->
  sbbuf_len id <= sbbuf_len id' <= Z.of_nat (length data).
Proof.
  intros HSB Hseek Hread Hoff Hlen Hfit Hinv Hdata Hcall.
  assert (Hbound : forall i, cache_inv SB SEEK data i ->
                     0 <= sbbuf_len i <= Z.of_nat (length data)).
  { intros i (Hfr & _). unfold region_ok in Hfr.
    destruct (sbbuf i); [|lia].
    destruct Hfr as (_ & Hn & Hl & _). split; [exact Hn|].
    destruct (Z.eq_dec (sbbuf_len i) 0) as [->|]; [lia|].
    pose proof (slice_full_inv data 0 (sbbuf_len i)). lia. }
  pose proof (Hbound id Hinv) as Hold.
  destruct (get_buffer_front_sound SB SEEK data env id f off len r id' f')
    as (Hinv' & _ & _); auto.
  pose proof (Hbound id' Hinv') as Hnew. split; [|lia].
  revert Hcall. unfold volume_id_get_buffer. cbv zeta.
  rewrite (u64_small (off + len)) by lia.
  rewrite (proj2 (Z.leb_le _ _) Hfit).
  destruct (match sbbuf id with Some b => Some b | None => malloc env end)
    as [buf|]; [|intros Hout; inversion Hout; subst; lia].
  destruct (Z.ltb_spec (sbbuf_len id) (off + len)) as [Hmiss|Hhit];
    [|intros Hout; inversion Hout; subst; simpl; lia].
  rewrite lseek_reliable by (auto; lia).
  rewrite read_reliable by auto. simpl. rewrite Hdata.
  pose proof (slice_length_le data 0 (off + len) ltac:(lia)) as Hgot.
  rewrite (u32_small (Z.of_nat (length (slice data 0 (off + len))))) by lia.
  assert (Hmono : sbbuf_len id
                  <= Z.of_nat (length (slice data 0 (off + len)))).
  { destruct (Z.le_gt_cases (Z.of_nat (length data)) (off + len)).
    - rewrite slice_all by lia. lia.
    - rewrite slice_length by lia. lia. }
  destruct (_ <? _); intros Hout; inversion Hout; subst; simpl; exact Hmono.
Qed.

(** A refill of the seek buffer whose seek succeeds is one [lseek] to
    [off] and one [read] of [len] bytes. *)
Lemma window_refill_log env id f off len r id' f' :
  SB < u64 (off + len) -> len <= SEEK ->
  seekbuf id <> None \/ malloc_fails env = false ->
  (off <? seekbuf_off id)
  || (u64 (seekbuf_off id + seekbuf_len id) <? u64 (off + len)) = true ->
  lseek_fails env = false -> 0 <= off < 2 ^ 63 ->
  volume_id_get_buffer SB SEEK env id f off len = (r, id', f') ->
  calls f' = calls f ++ [Lseek off; Read len].
Proof.
  intros Hwin Hfit Hblock Hmiss Hseek Hoff.
  unfold volume_id_get_buffer. cbv zeta.
  rewrite (proj2 (Z.leb_gt _ _) Hwin), (proj2 (Z.ltb_ge _ _) Hfit).
  destruct (window_block env id Hblock) as [buf ->].
  rewrite Hmiss, lseek_reliable by (auto; lia).
  rewrite (proj2 (Z.eqb_neq off (-1))) by lia.
  destruct (read env _ len) as [[n got] f2] eqn:Hrd.
  apply read_spec in Hrd. destruct Hrd as (_ & Hlog & _). simpl in Hlog.
  destruct (u32 n <? len); intros Hout; inversion Hout; subst;
    rewrite Hlog, <- app_assoc; reflexivity.
Qed.

Lemma free_buffer_empty id :
  unallocated_empty id ->
  sbbuf_len (volume_id_free_buffer id) = 0
  /\ seekbuf_len (volume_id_free_buffer id) = 0
  /\ seekbuf_off (volume_id_free_buffer id) = seekbuf_off id.
Proof.
  intros [Hsb Hsk].
  destruct id as [[?|] ? [?|] ? ?]; simpl in *; auto.
Qed.

(** X7. After [volume_id_free_buffer] nothing is served from memory: a
    request for at least one byte whose end does not pass [2^64] seeks and
    reads again, at 0 for the superblock buffer and at [off] for the seek
    buffer, even for a range that was cached before. *)
Theorem free_then_get_rereads env id f off len r id' f' :
  unallocated_empty id -> is_u64 (seekbuf_off id) ->
  malloc_fails env = false ->
  0 <= off -> 0 < len -> off + len < 2 ^ 64 ->
  volume_id_get_buffer SB SEEK env (volume_id_free_buffer id) f off len
  = (r, id', f') ->
  (off + len <= SB -> calls f' = calls f ++ [Lseek 0; Read (off + len)])
  /\ (SB < off + len -> len <= SEEK ->
      lseek_fails env = false -> off < 2 ^ 63 ->
      calls f' = calls f ++ [Lseek off; Read len]).
Proof.
  intros Hinv [Hso0 Hso] Hmalloc Hoff Hpos Hsum Hcall.
  destruct (free_buffer_empty id Hinv) as (Hn & Hl & Ho).
  assert (Hw : u64 (off + len) = off + len) by (apply u64_small; lia).
  split.
  - intros Hfit. rewrite <- Hw.
    eapply front_refill_log; eauto; rewrite ?Hw, ?Hn; lia.
  - intros Hwin Hfit Hseek H63.
    eapply window_refill_log; eauto; rewrite ?Hw; try lia.
    rewrite Hl, Ho, Z.add_0_r, (u64_small (seekbuf_off id)) by lia.
    apply orb_true_iff.
    destruct (Z.lt_ge_cases off (seekbuf_off id)).
    + left. apply Z.ltb_lt. lia.
    + right. apply Z.ltb_lt. lia.
Qed.

End MoreCache.


(** * Further properties at concrete inputs *)

Lemma strnlen_no_nul s n :
  (n <= length s)%nat -> Forall (fun b => b <> x00) (take n s) ->
  strnlen s n = n.
Proof.
  revert s. induction n as [|n IH]; intros [|c s] Hn Hs; simpl in *;
    try reflexivity; try lia.
  inversion Hs as [|? ? Hc Hs']; subst.
  destruct (byte_eqb_spec c x00); [contradiction|].
  f_equal. apply IH; [lia|exact Hs'].
Qed.

(** X22. [volume_id_set_label_string] needs a cell for the terminator:
    when [count] is the size of [label] and the [count] bytes given hold
    no NUL and do not end in whitespace, the terminator would be stored
    one cell behind the array, and the call has no defined result. *)
Theorem set_label_string_no_room id buf n :
  Z.of_nat (S n) < 2 ^ 32 ->
  length (label id) = S n ->
  (S n <= length buf)%nat ->
  Forall (fun b => b <> x00) (take (S n) buf) ->
  isspace (nth n buf x00) = false ->
  volume_id_set_label_string id buf (Z.of_nat (S n)) = None.
Proof.
  intros H32 Hlab Hbuf Hnn Hlast. unfold volume_id_set_label_string.
  rewrite memcpy_Some by lia. cbn [mbind option_bind].
  rewrite Nat2Z.id.
  rewrite (drop_ge (label id)) by lia. rewrite app_nil_r.
  rewrite strnlen_no_nul;
    [|rewrite length_take; lia|rewrite take_take, Nat.min_id; exact Hnn].
  cbn [strip_scan].
  replace (nth n (take (S n) buf) x00) with (nth n buf x00).
  2:{ rewrite <- (take_drop (S n) buf) at 1.
      rewrite app_nth1 by (rewrite length_take; lia). reflexivity. }
  rewrite Hlast. cbn [negb]. rewrite u32_small by lia.
  unfold poke. rewrite length_take, Nat.min_l by lia.
  rewrite (proj2 (Z.ltb_ge _ _)) by lia. rewrite andb_false_r. reflexivity.
Qed.


Lemma run_round_trip_witness :
  exists rs id' f',
    run SB_small SEEK_small
      [Request no_faults 0 16; Request no_faults 30 10;
       Request no_faults 4 4; Request no_faults 32 4]
      closed_buffers (File forty_bytes 0 []) = (rs, id', f')
    /\ map snd rs
       = [Some (slice forty_bytes 0 16); Some (slice forty_bytes 30 10);
          Some (slice forty_bytes 4 4); Some (slice forty_bytes 32 4)]
    /\ Forall2 (fun q a =>
         forall p, fst a = Ok p ->
           snd a = Some (slice forty_bytes (req_off q) (req_len q))
           /\ Z.of_nat (length (slice forty_bytes (req_off q) (req_len q)))
              = req_len q)
        [Request no_faults 0 16; Request no_faults 30 10;
         Request no_faults 4 4; Request no_faults 32 4] rs.
Proof.
  eexists _, _, _. split; [vm_compute; reflexivity|].
  split; [vm_compute; reflexivity|].
  eapply (run_round_trip SB_small SEEK_small forty_bytes).
  - unfold SB_small; lia.
  - repeat constructor; simpl; unfold is_u64, is_u32; lia.
  - vm_compute; reflexivity.
Defined.

Lemma run_within_capacity_witness :
  exists rs id' f',
    run SB_small SEEK_small
      [Request read_error 0 16; Request seek_error 30 10;
       Request no_faults (2 ^ 64 - 1) 2]
      closed_buffers (File forty_bytes 0 []) = (rs, id', f')
    /\ within_capacity SB_small SEEK_small id'.
Proof.
  eexists _, _, _. split; [vm_compute; reflexivity|].
  eapply (run_within_capacity SB_small SEEK_small
            [Request read_error 0 16; Request seek_error 30 10;
             Request no_faults (2 ^ 64 - 1) 2]
            closed_buffers (File forty_bytes 0 [])).
  - unfold SB_small; lia.
  - repeat constructor; simpl; lia.
  - split; intros buf Hbuf; discriminate Hbuf.
  - vm_compute; reflexivity.
Defined.

Lemma window_hit_witness :
  let id := VolumeId None 0 (Some (repeat x41 10)) 70000 10 in
  volume_id_get_buffer SB_example SEEK_example read_error id
    (File long_source 70010 []) 70002 4
  = (Ok (SeekPtr 2), id, File long_source 70010 []).
Proof.
  intros id.
  apply (window_hit SB_example SEEK_example read_error id
           (File long_source 70010 []) 70002 4).
  - vm_compute; reflexivity.
  - unfold SEEK_example; lia.
  - discriminate.
  - simpl; lia.
  - vm_compute; discriminate.
Defined.

Lemma window_miss_moves_window_witness :
  let id := VolumeId None 0 (Some (repeat x41 10)) 70000 10 in
  exists r id' f',
    volume_id_get_buffer SB_example SEEK_example no_faults id
      (File long_source 70010 []) 69990 20 = (r, id', f')
    /\ (r = Ok (SeekPtr 0) \/ r = Null InsufficientData)
    /\ (r = Ok (SeekPtr 0) -> 20 <= seekbuf_len id')
    /\ seekbuf_off id' = 69990
    /\ front_untouched id id'
    /\ calls f' = [Lseek 69990; Read 20].
Proof.
  intros id.
  apply (window_miss_moves_window SB_example SEEK_example no_faults id
           (File long_source 70010 []) 69990 20).
  - vm_compute; reflexivity.
  - unfold SEEK_example; lia.
  - left; discriminate.
  - vm_compute; reflexivity.
  - reflexivity.
  - lia.
Defined.

Lemma window_seek_error_propagated_witness :
  exists r id' f',
    volume_id_get_buffer SB_example SEEK_example no_faults closed_buffers
      (File ten_bytes 0 []) (2 ^ 63) 16 = (r, id', f')
    /\ r = Null IoFailure
    /\ seekbuf_off id' = 0 /\ seekbuf_len id' = 0
    /\ calls f' = [Lseek (2 ^ 63)].
Proof.
  eexists _, _, _. split; [vm_compute; reflexivity|].
  eapply (window_seek_error_propagated SB_example SEEK_example no_faults
            closed_buffers (File ten_bytes 0 []) (2 ^ 63) 16).
  - vm_compute; reflexivity.
  - unfold SEEK_example; lia.
  - vm_compute; reflexivity.
  - right; reflexivity.
  - right; lia.
  - vm_compute; reflexivity.
Defined.

Lemma front_valid_len_monotone_witness :
  exists r id' f',
    volume_id_get_buffer SB_example SEEK_example no_faults
      (VolumeId (Some (firstn 4 ten_bytes)) 4 None 0 0)
      (File ten_bytes 4 []) 2 18 = (r, id', f')
    /\ 4 <= sbbuf_len id' <= 10.
Proof.
  eexists _, _, _. split; [vm_compute; reflexivity|].
  eapply (front_valid_len_monotone SB_example SEEK_example ten_bytes no_faults
            (VolumeId (Some (firstn 4 ten_bytes)) 4 None 0 0)
            (File ten_bytes 4 []) 2 18).
  - unfold SB_example; lia.
  - reflexivity.
  - reflexivity.
  - lia.
  - lia.
  - unfold SB_example; lia.
  - unfold cache_inv, region_ok, mirrors; simpl.
    repeat split; try lia; vm_compute; congruence.
  - reflexivity.
  - vm_compute; reflexivity.
Defined.

Lemma free_then_get_rereads_witness :
  let id :=
    VolumeId (Some (repeat x41 16)) 16 (Some (repeat x41 10)) 70000 10 in
  (forall r id' f',
     volume_id_get_buffer SB_example SEEK_example no_faults
       (volume_id_free_buffer id) (File long_source 70010 []) 0 16
     = (r, id', f') ->
     calls f' = [Lseek 0; Read 16])
  /\ (forall r id' f',
       volume_id_get_buffer SB_example SEEK_example no_faults
         (volume_id_free_buffer id) (File long_source 70010 []) 70000 10
       = (r, id', f') ->
       calls f' = [Lseek 70000; Read 10]).
Proof.
  intros id. split; intros r id' f' Hcall.
  - apply (proj1 (free_then_get_rereads SB_example SEEK_example no_faults id
                    (File long_source 70010 []) 0 16 r id' f'
                    ltac:(split; discriminate)
                    ltac:(unfold is_u64; simpl; lia)
                    eq_refl ltac:(lia) ltac:(lia) ltac:(lia) Hcall)).
    unfold SB_example; lia.
  - apply (proj2 (free_then_get_rereads SB_example SEEK_example no_faults id
                    (File long_source 70010 []) 70000 10 r id' f'
                    ltac:(split; discriminate)
                    ltac:(unfold is_u64; simpl; lia)
                    eq_refl ltac:(lia) ltac:(lia) ltac:(lia) Hcall)).
    + unfold SB_example; lia.
    + unfold SEEK_example; lia.
    + reflexivity.
    + lia.
Defined.

Lemma reachable_unallocated_empty_witness :
  unallocated_empty
    (volume_id_free_buffer
       (VolumeId (Some []) (2 ^ 32 - 1) None 0 0)).
Proof.
  apply (reachable_unallocated_empty SB_example SEEK_example).
  apply reach_free.
  apply (reach_get SB_example SEEK_example read_error closed_buffers
           (File ten_bytes 0 []) 0 4 (Ok (SbPtr 0))
           (VolumeId (Some []) (2 ^ 32 - 1) None 0 0)
           (File ten_bytes 0 [Lseek 0; Read 4])).
  - apply reach_closed.
  - vm_compute; reflexivity.
Defined.


Lemma set_label_string_strips_witness :
  exists l,
    volume_id_set_label_string blank_info
      (bytes_of [65; 32; 66; 32; 9; 32; 0; 67; 0]) 9
    = Some (with_label blank_info l)
    /\ length l = 65%nat
    /\ cstring l = bytes_of [65; 32; 66].
Proof.
  apply (set_label_string_strips blank_info
           (bytes_of [65; 32; 66; 32; 9; 32; 0; 67; 0]) 9).
  - unfold is_u32; lia.
  - simpl; lia.
  - simpl; lia.
Defined.

Lemma set_label_string_trimmed_witness :
  exists id',
    volume_id_set_label_string blank_info
      (bytes_of [65; 32; 66; 32; 9; 32; 0; 67; 0]) 9 = Some id'
    /\ cstring (label id')
         `prefix_of` bytes_of [65; 32; 66; 32; 9; 32; 0; 67; 0]
    /\ Z.of_nat (length (cstring (label id'))) <= 9
    /\ forall c, last (cstring (label id')) = Some c -> isspace c = false.
Proof.
  eexists. split; [vm_compute; reflexivity|].
  eapply (set_label_string_trimmed blank_info
            (bytes_of [65; 32; 66; 32; 9; 32; 0; 67; 0]) 9).
  - unfold is_u32; lia.
  - vm_compute; reflexivity.
Defined.

Lemma set_label_string_blank_witness :
  exists id',
    volume_id_set_label_string blank_info (bytes_of [32; 9; 32; 0; 65]) 5
    = Some id'
    /\ cstring (label id') = [] /\ label id' !! 0%nat = Some x00.
Proof.
  eexists. split; [vm_compute; reflexivity|].
  eapply (set_label_string_blank blank_info (bytes_of [32; 9; 32; 0; 65]) 5).
  - unfold is_u32; lia.
  - repeat constructor.
  - vm_compute; reflexivity.
Defined.

Lemma set_label_string_no_room_witness :
  volume_id_set_label_string
    (with_label blank_info (repeat x00 3)) (bytes_of [65; 66; 67; 68]) 3
  = None.
Proof.
  apply (set_label_string_no_room (with_label blank_info (repeat x00 3))
           (bytes_of [65; 66; 67; 68]) 2).
  - lia.
  - reflexivity.
  - simpl; lia.
  - repeat constructor; discriminate.
  - reflexivity.
Defined.

Lemma set_label_unicode16_stores_witness :
  volume_id_set_label_unicode16 blank_info
    (bytes_of [65; 0; 233; 0; 172; 32; 0; 0; 66; 0]) LE 10
  = Some (with_label blank_info
            (bytes_of [65; 195; 169; 226; 130; 172; 0] ++ repeat x00 58)).
Proof.
  apply (set_label_unicode16_stores blank_info
           (bytes_of [65; 0; 233; 0; 172; 32; 0; 0; 66; 0]) LE 10).
  - lia.
  - lia.
  - simpl; lia.
  - simpl; lia.
  - vm_compute; lia.
Defined.

Lemma set_label_unicode16_round_trip_witness :
  (exists l,
     volume_id_set_label_unicode16 blank_info
       (bytes_of [0; 65; 0; 233; 32; 172; 0; 0; 0; 66]) BE 10
     = Some (with_label blank_info l)
     /\ cstring l = bytes_of [65; 195; 169; 226; 130; 172]
     /\ utf8_decode (cstring l) = Some [65; 233; 8364])
  /\ (exists l,
        volume_id_set_label_unicode16 blank_info
          (bytes_of [216; 0; 0; 0]) BE 4
        = Some (with_label blank_info l)
        /\ cstring l = bytes_of [237; 160; 128]
        /\ utf8_decode (cstring l) = None).
Proof.
  split.
  - destruct (set_label_unicode16_round_trip blank_info
                (bytes_of [0; 65; 0; 233; 32; 172; 0; 0; 0; 66]) BE 10)
      as (l & Hset & Hstr & Hdec & _).
    + lia.
    + lia.
    + simpl; lia.
    + split; [vm_compute; discriminate|vm_compute; reflexivity].
    + apply list_elem_of_In. vm_compute. auto.
    + exists l. split; [exact Hset|]. split; [exact Hstr|].
      rewrite Hdec; [reflexivity|]. vm_compute. repeat constructor.
  - destruct (set_label_unicode16_round_trip blank_info
                (bytes_of [216; 0; 0; 0]) BE 4)
      as (l & Hset & Hstr & _ & Hdec).
    + lia.
    + lia.
    + simpl; lia.
    + split; [vm_compute; discriminate|vm_compute; reflexivity].
    + apply list_elem_of_In. vm_compute. auto.
    + exists l. split; [exact Hset|]. split; [exact Hstr|].
      apply Hdec. vm_compute. apply Exists_cons_hd. reflexivity.
Defined.

Lemma set_label_unicode16_unterminated_witness :
  volume_id_set_label_unicode16
    (with_label blank_info (bytes_of [1; 2; 3; 4; 5; 0]))
    (bytes_of [65; 0; 233; 0]) LE 4
  = Some (with_label blank_info (bytes_of [65; 195; 169; 4; 5; 0]))
  /\ cstring (bytes_of [65; 195; 169; 4; 5; 0])
     = bytes_of [65; 195; 169; 4; 5]
  /\ utf8_decode (bytes_of [65; 195; 169]) = Some [65; 233].
Proof.
  destruct (set_label_unicode16_unterminated
              (with_label blank_info (bytes_of [1; 2; 3; 4; 5; 0]))
              (bytes_of [65; 0; 233; 0]) LE 4)
    as (Hset & _ & Hstr & Hdec).
  - lia.
  - lia.
  - simpl; lia.
  - split; [vm_compute; discriminate|vm_compute; reflexivity].
  - intros Hin. apply list_elem_of_In in Hin. vm_compute in Hin.
    intuition discriminate.
  - split; [exact Hset|]. split; [exact Hstr|].
    apply Hdec. vm_compute. repeat constructor.
Defined.

Lemma set_label_unicode16_ascii_witness :
  exists l,
    volume_id_set_label_unicode16 blank_info
      (bytes_of [66; 0; 79; 0; 79; 0; 84; 0; 0; 0]) LE 10
    = Some (with_label blank_info l)
    /\ map byte_val (cstring l) = [66; 79; 79; 84].
Proof.
  apply (set_label_unicode16_ascii blank_info
           (bytes_of [66; 0; 79; 0; 79; 0; 84; 0; 0; 0]) LE 10).
  - lia.
  - lia.
  - simpl; lia.
  - split; [vm_compute; discriminate|vm_compute; reflexivity].
  - apply list_elem_of_In. vm_compute. auto 10.
  - vm_compute. repeat constructor.
Defined.

Lemma set_label_unicode16_odd_count_witness :
  volume_id_set_label_unicode16 blank_info (bytes_of [65; 0; 0; 0; 7]) LE 5
  = volume_id_set_label_unicode16 blank_info (bytes_of [65; 0; 0; 0; 7]) LE 4.
Proof.
  apply (set_label_unicode16_odd_count blank_info
           (bytes_of [65; 0; 0; 0; 7]) LE 2).
  - lia.
  - lia.
Defined.

Lemma set_uuid_round_trip_witness :
  exists id',
    volume_id_set_uuid blank_info (bytes_of [18; 52; 171; 205]) UUID_DOS
    = Some id'
    /\ parse_uuid (cstring (uuid id')) = Some (bytes_of [205; 171; 52; 18])
    /\ uuid_raw_len id' = 4
    /\ take 4 (uuid_raw id') = bytes_of [18; 52; 171; 205].
Proof.
  apply (set_uuid_round_trip blank_info (bytes_of [18; 52; 171; 205])
           UUID_DOS).
  - discriminate.
  - simpl; lia.
  - simpl; lia.
  - simpl; lia.
  - discriminate.
Defined.

Lemma set_uuid_all_zero_witness :
  volume_id_set_uuid
    (with_uuid blank_info (bytes_of [49; 50; 51; 52; 0]))
    (repeat x00 8) UUID_NTFS
  = Some (VolumeIdInfo (repeat x00 64) 0 (repeat x00 65)
            (repeat x00 36) 8 (bytes_of [49; 50; 51; 52; 0])
            0 None).
Proof.
  apply (set_uuid_all_zero
           (with_uuid blank_info (bytes_of [49; 50; 51; 52; 0]))
           (repeat x00 8) UUID_NTFS).
  - simpl; lia.
  - simpl; lia.
  - reflexivity.
Defined.

Lemma set_uuid_dce_string_witness :
  exists id',
    volume_id_set_uuid blank_info
      (bytes_of [65; 66; 67; 0] ++ repeat x41 32) UUID_DCE_STRING
    = Some id'
    /\ cstring (uuid id') = bytes_of [65; 66; 67]
    /\ uuid_raw_len id' = 36
    /\ take 36 (uuid_raw id') = bytes_of [65; 66; 67; 0] ++ repeat x41 32.
Proof.
  apply (set_uuid_dce_string blank_info
           (bytes_of [65; 66; 67; 0] ++ repeat x41 32)).
  - simpl; lia.
  - simpl; lia.
  - simpl; lia.
  - discriminate.
Defined.

Lemma set_uuid_defined_witness :
  exists raw u,
    volume_id_set_uuid blank_info (bytes_of (map Z.of_nat (seq 1 16))) UUID_DCE
    = Some (VolumeIdInfo (repeat x00 64) 0 (repeat x00 65)
              raw 16 u 0 None)
    /\ length raw = 36%nat
    /\ length u = 37%nat.
Proof.
  apply (set_uuid_defined blank_info (bytes_of (map Z.of_nat (seq 1 16)))
           UUID_DCE).
  - simpl; lia.
  - simpl; lia.
  - simpl; lia.
Defined.

Lemma usage_names_distinct_witness :
  (usage_to_string usage_example 99 = None <-> 99 ∉ enumerators usage_example)
  /\ usage_to_string usage_example 5 = Some "raid"%string
  /\ volume_id_set_usage usage_example blank_info 99
     = VolumeIdInfo (repeat x00 64) 0 (repeat x00 65) (repeat x00 36) 0
         (repeat x00 37) 99 None
  /\ volume_id_set_usage_part usage_example (VolumeIdPartition 0 None) 5
     = VolumeIdPartition 5 (Some "raid"%string).
Proof.
  assert (Hnd : NoDup (enumerators usage_example)).
  { vm_compute.
    repeat (apply NoDup_cons_2;
            [rewrite ?elem_of_cons, elem_of_nil; lia|]).
    apply NoDup_nil_2. }
  pose proof (usage_names_distinct usage_example 99 5 blank_info
                (VolumeIdPartition 0 None) Hnd)
    as (Hnull & _ & _ & _ & Hset & _).
  pose proof (usage_names_distinct usage_example 5 5 blank_info
                (VolumeIdPartition 0 None) Hnd)
    as (_ & _ & _ & _ & _ & Hpart & _).
  split; [exact Hnull|]. split; [reflexivity|].
  split; [exact Hset|exact Hpart].
Defined.
